(** * Pin manager of js-ipfs: a shallow embedding of [pin-manager.js]

    The development follows the source of the pin manager
    ([core/components/pin/pin-manager.js], the class [PinManager]) method by
    method.  The collaborators the manager only consumes (the [cids] value
    type, the DAG service, the datastore, [p-queue], [dag-cbor-links], the
    pin-set codec created by [createPinSet]) are modelled at the interface
    the manager uses. *)

From stdpp Require Import gmap strings list fin_maps pretty countable.

Open Scope string_scope.
Open Scope list_scope.

(** ** Errors and promises *)

(** A JavaScript [Error] as built by [err-code]: a message and a code. *)
Record Error := mkError { message : string; code : string }.

(** A promise of a collaborator once it has settled. *)
Inductive Result (A : Type) : Type :=
| Ok (a : A)
| Err (e : Error).
Arguments Ok {A} a.
Arguments Err {A} e.

(** How the promise of an [async] method settles.  [Pending] is a promise
    that has not settled when the fuel of a queue run is used up. *)
Inductive Promise (A : Type) : Type :=
| Pending
| Fulfilled (a : A)
| Rejected (e : Error).
Arguments Pending {A}.
Arguments Fulfilled {A} a.
Arguments Rejected {A} e.

(** ** Content identifiers ([cids]) *)

Inductive Codec := DagPB | DagCBOR | Raw | OtherCodec.

(** A CID is kept in its canonical string form; the binary form [cid.buffer]
    carries the same information, so [Buffer] is the same data under another
    type and [new CID(x)] converts between them. *)
Record CID := mkCID { cid_str : string }.
Record Buffer := mkBuffer { buf_str : string }.

#[global] Instance CID_eq_dec : EqDecision CID.
Proof. solve_decision. Defined.
#[global] Instance Buffer_eq_dec : EqDecision Buffer.
Proof. solve_decision. Defined.
#[global] Instance CID_countable : Countable CID.
Proof. by refine (inj_countable' cid_str mkCID _); intros []. Defined.

(** Modelled from the spec: [cidToString] of [utils/cid], which is not among
    the sources: the canonical string form of a CID. *)
Definition cidToString (c : CID) : string := cid_str c.
(** [new CID(str)] and [new CID(buf)]. *)
Definition CID_ofString (s : string) : CID := mkCID s.
Definition CID_ofBuffer (b : Buffer) : CID := mkCID (buf_str b).
(** [cid.buffer]. *)
Definition CID_buffer (c : CID) : Buffer := mkBuffer (cid_str c).

(** The value of a digit of base32 (RFC 4648, lower case), the base of the
    canonical string of a version 1 CID. *)
Fixpoint digit_value (alphabet : string) (a : Ascii.ascii) : option nat :=
  match alphabet with
  | EmptyString => None
  | String b rest =>
      if decide (a = b) then Some 0 else S <$> digit_value rest a
  end.

Definition base32_value (a : Ascii.ascii) : option nat :=
  digit_value "abcdefghijklmnopqrstuvwxyz234567" a.

(** [cid.codec].  A version 0 CID (["Qm..."], base58btc) is always dag-pb.
    The canonical string of a version 1 CID is ["b"] followed by the base32
    digits of the bytes of the version ([0x01]), of the codec and of the
    multihash, five bits a digit: the digits ["afy"] hold the version and
    the first seven bits of the codecs [0x70] (dag-pb) and [0x71]
    (dag-cbor), the digits ["afk"] those of [0x55] (raw), and the digit
    after them starts with the last bit of the codec, whatever the hash
    function. *)
Definition CID_codec (c : CID) : Codec :=
  let s := cid_str c in
  if String.prefix "Qm" s then DagPB
  else
    match String.get 4 s ≫= base32_value with
    | Some v =>
        if String.prefix "bafy" s
        then (if bool_decide (v < 16) then DagPB else DagCBOR)
        else if String.prefix "bafk" s
        then (if bool_decide (v < 16) then OtherCodec else Raw)
        else OtherCodec
    | None => OtherCodec
    end.

(** ** DAG nodes ([ipld-dag-pb], dag-cbor) *)

Record DAGLink := mkDAGLink { Name : string; Tsize : nat; Hash : CID }.
Record DAGNode := mkDAGNode { Data : string; Links : list DAGLink }.

#[global] Instance DAGLink_eq_dec : EqDecision DAGLink.
Proof. solve_decision. Defined.
#[global] Instance DAGNode_eq_dec : EqDecision DAGNode.
Proof. solve_decision. Defined.
#[global] Instance DAGLink_countable : Countable DAGLink.
Proof.
  refine (inj_countable' (fun l => (Name l, Tsize l, Hash l))
            (fun '(n, t, h) => mkDAGLink n t h) _).
  by intros [].
Defined.
#[global] Instance DAGNode_countable : Countable DAGNode.
Proof.
  refine (inj_countable' (fun n => (Data n, Links n))
            (fun '(d, l) => mkDAGNode d l) _).
  by intros [].
Defined.

(** [node.size]: the bytes of the node and of everything below it. *)
Definition DAGNode_size (n : DAGNode) : nat :=
  String.length (Data n) + foldr (fun l acc => Tsize l + acc) 0 (Links n).

(** A decoded dag-cbor value: scalars, links, arrays and maps. *)
#[warnings="-register-all"]
Inductive CborValue :=
| CborAtom (s : string)
| CborLink (c : CID)
| CborArray (items : list CborValue)
| CborMap (entries : list (string * CborValue)).

(** What [dag.get] hands back as [value]. *)
Inductive Node :=
| PBNode (n : DAGNode)
| CborNode (v : CborValue)
| RawNode (bytes : string).

Definition joinPath (base key : string) : string :=
  if decide (base = "") then key else base +:+ "/" +:+ key.

(** [dag-cbor-links]: every CID inside a value, with the path that leads to
    it. *)
Fixpoint cborLinks (path : string) (v : CborValue) : list (string * CID) :=
  match v with
  | CborAtom _ => []
  | CborLink c => [(path, c)]
  | CborArray items =>
      (fix go (i : nat) (l : list CborValue) {struct l} : list (string * CID) :=
         match l with
         | [] => []
         | x :: l' => cborLinks (joinPath path (pretty i)) x ++ go (S i) l'
         end) 0%nat items
  | CborMap entries =>
      (fix go (l : list (string * CborValue)) : list (string * CID) :=
         match l with
         | [] => []
         | (k, x) :: l' => cborLinks (joinPath path k) x ++ go l'
         end) entries
  end.

(** [dagCborLinks(node)] on the value of a fetched node.  A DAGNode object
    holds its CIDs under [Links/i/Hash]. *)
Definition dagCborLinks (node : Node) : list (string * CID) :=
  match node with
  | PBNode n =>
      imap (fun i l => ("Links/" +:+ pretty i +:+ "/Hash", Hash l)) (Links n)
  | CborNode v => cborLinks "" v
  | RawNode _ => []
  end.

(** ** The DAG service and the datastore *)

Definition ERR_NOT_FOUND : string := "ERR_NOT_FOUND".

Definition notFoundError (what : string) : Error :=
  mkError ("Not Found: " +:+ what) ERR_NOT_FOUND.

(** [dag.get(cid, path, { preload })] at the root path: the block store is a
    finite map from CID to node; [preload] does not change the value. *)
Definition dag_get (d : gmap string Node) (c : CID) (preload : bool)
  : Result Node :=
  match d !! cid_str c with
  | Some n => Ok n
  | None => Err (notFoundError (cid_str c))
  end.

(** The multihash of a node's serialisation, as an injective encoding of the
    node: content addressing without collisions. *)
Definition multihash (n : DAGNode) : string := pretty (encode n).

(** [dag.put(node, { version: 0, format: DAG_PB, hashAlg: SHA2_256 })]. *)
Definition cidOf (n : DAGNode) : CID := mkCID ("Qm" +:+ multihash n).

Definition dag_put (d : gmap string Node) (n : DAGNode)
  : gmap string Node * CID :=
  (<[cid_str (cidOf n) := PBNode n]> d, cidOf n).

Record Repo := mkRepo { datastore : gmap string Buffer }.

Definition datastore_has (r : Repo) (k : string) : bool :=
  bool_decide (is_Some (datastore r !! k)).

Definition datastore_get (r : Repo) (k : string) : Result Buffer :=
  match datastore r !! k with
  | Some b => Ok b
  | None => Err (notFoundError k)
  end.

Definition datastore_put (r : Repo) (k : string) (b : Buffer) : Repo :=
  mkRepo (<[k := b]> (datastore r)).

(** ** JavaScript sets of strings *)

(** A [Set] keeps its elements once, in insertion order. *)
Definition Set_has (s : list string) (k : string) : bool :=
  bool_decide (k ∈ s).

Definition Set_add (s : list string) (k : string) : list string :=
  if Set_has s k then s else s ++ [k].

(** [new Set(array)]. *)
Definition Set_new (l : list string) : list string := foldl Set_add [] l.

(** ** p-queue *)

Module PQueue.
Section Queue.
Context {S T : Type}.

(** What running one task to its end does: the new state, the tasks it added
    to the queue, whether it called [queue.clear()], and the error it threw,
    if any.  The promise [queue.add] returns for the task is the only place
    that error goes. *)
Record TaskEnd := mkTaskEnd {
  state : S;
  added : list T;
  cleared : bool;
  thrown : option Error
}.

(** The end of [await queue.onIdle()]: the state, the rejections of the
    promises returned by [add]/[addAll], which the callers in this file never
    await, and whether the queue went idle before the fuel ran out. *)
Record Run := mkRun {
  final : S;
  unhandled : list Error;
  idle : bool
}.

Variable concurrency : nat.
Variable runTask : T -> S -> TaskEnd.

(** Tasks start in the order they were added, at most [concurrency] at a
    time, and are taken to finish in that order.  [queue] lists the tasks not
    finished yet; its first [concurrency] entries are in flight.
    [queue.clear()] drops the tasks that have not started; the ones in flight
    run to their end.  [onIdle] resolves when nothing is left, whatever the
    tasks threw. *)
Fixpoint onIdle (fuel : nat) (queue : list T) (s : S) (errs : list Error)
  : Run :=
  match queue with
  | [] => mkRun s errs true
  | t :: rest =>
      match fuel with
      | O => mkRun s errs false
      | Datatypes.S fuel' =>
          let e := runTask t s in
          let rest' := if cleared e then take (concurrency - 1) rest else rest in
          onIdle fuel' (rest' ++ added e) (state e)
            (match thrown e with Some err => errs ++ [err] | None => errs end)
      end
  end.

End Queue.
Arguments TaskEnd : clear implicits.
Arguments Run : clear implicits.
End PQueue.

(** ** The pin manager *)

Definition WALK_DAG_CONCURRENCY_LIMIT : nat := 300.
Definition IS_PINNED_WITH_TYPE_CONCURRENCY_LIMIT : nat := 300.
Definition PIN_DS_KEY : string := "/local/pins".

Inductive PinType := direct | recursive | indirect | all.

#[global] Instance PinType_eq_dec : EqDecision PinType.
Proof. solve_decision. Defined.

(** The [PinTypes] table: each key maps to the string of the same name. *)
Definition PinTypes (t : PinType) : string :=
  match t with
  | direct => "direct"
  | recursive => "recursive"
  | indirect => "indirect"
  | all => "all"
  end.

(** [Object.keys(PinTypes)]. *)
Definition PinTypes_keys : list string :=
  ["direct"; "recursive"; "indirect"; "all"].

(** The values a caller can hand to [checkPinType]: every JavaScript type.
    The method only asks a value for its type, compares it with strings and
    puts it into a template literal, so a number or a bigint is kept as the
    text JavaScript prints for it, and an object (a function, an array) as
    what converting it to a string gives: a string, or the error the
    conversion throws. *)
Inductive JSValue :=
| JSUndefined
| JSNull
| JSBoolean (b : bool)
| JSNumber (text : string)
| JSBigInt (text : string)
| JSString (s : string)
| JSSymbol (description : string)
| JSObject (converted : Result string).

(** [typeof v === 'string'] *)
Definition isString (v : JSValue) : bool :=
  match v with JSString _ => true | _ => false end.

(** The [TypeError] of the language: it has no [code]. *)
Definition JS_TypeError (msg : string) : Error := mkError msg "".

(** The string a template literal makes of a value ([ToString]); for a
    Symbol it throws. *)
Definition JS_toString (v : JSValue) : Result string :=
  match v with
  | JSUndefined => Ok "undefined"
  | JSNull => Ok "null"
  | JSBoolean true => Ok "true"
  | JSBoolean false => Ok "false"
  | JSNumber text => Ok text
  | JSBigInt text => Ok text
  | JSString s => Ok s
  | JSSymbol _ => Err (JS_TypeError "Cannot convert a Symbol value to a string")
  | JSObject converted => converted
  end.

(** [Err] is an exception thrown while the message is built. *)
Definition invalidPinTypeErr (type : JSValue) : Result Error :=
  match JS_toString type with
  | Ok shown =>
      let errMsg := "Invalid type '" +:+ shown
                    +:+ "', must be one of {direct, indirect, recursive, all}" in
      Ok (mkError errMsg "ERR_INVALID_PIN_TYPE")
  | Err e => Err e
  end.

(** [array.includes(v)] for an array of strings. *)
Definition includes (keys : list string) (v : JSValue) : bool :=
  match v with
  | JSString s => bool_decide (s ∈ keys)
  | _ => false
  end.

(** [PinManager.checkPinType]: a static method.  [Ok None] is the
    [undefined] it returns for a valid type, [Ok (Some e)] the error it
    returns, [Err e] an exception it throws. *)
Definition checkPinType (type : JSValue) : Result (option Error) :=
  if negb (isString type) || negb (includes PinTypes_keys type)
  then match invalidPinTypeErr type with
       | Ok e => Ok (Some e)
       | Err e => Err e
       end
  else Ok None.

(** [{ node, cid }] as [storeSet] resolves. *)
Record StoreResult := mkStoreResult { node : DAGNode; cid : CID }.

(** The object [createPinSet(dag)] returns, as far as the manager calls it.
    Each method works on the blocks of the DAG service it was created
    with. *)
Record PinSet := mkPinSet {
  storeSet : gmap string Node -> list Buffer
             -> Result (gmap string Node * StoreResult);
  loadSet : gmap string Node -> Node -> string -> Result (list CID);
  hasDescendant : gmap string Node -> Buffer -> CID -> bool
}.

Record PinManager := mkPinManager {
  repo : Repo;
  dag : gmap string Node;
  directPins : list string;
  recursivePins : list string
}.

(** [new PinManager(repo, dag)] *)
Definition PinManager_new (r : Repo) (d : gmap string Node) : PinManager :=
  mkPinManager r d [] [].

(** An [async] method: from the manager's state to the state it leaves and
    the way its promise settles. *)
Definition Async (A : Type) : Type := PinManager -> PinManager * Promise A.

Definition ret {A} (a : A) : Async A := fun this => (this, Fulfilled a).

Definition bind {A B} (k : A -> Async B) (m : Async A) : Async B :=
  fun this =>
    match m this with
    | (this', Fulfilled a) => k a this'
    | (this', Rejected e) => (this', Rejected e)
    | (this', Pending) => (this', Pending)
    end.

#[global] Instance Async_ret : MRet Async := @ret.
#[global] Instance Async_bind : MBind Async := @bind.

(** [await p] for a settled promise of a collaborator. *)
Definition await {A} (p : PinManager -> Result A) : Async A :=
  fun this =>
    match p this with
    | Ok a => (this, Fulfilled a)
    | Err e => (this, Rejected e)
    end.

(** [await Promise.all([a, b])]: both run, in the order of the array; the
    result rejects with the first rejection. *)
Definition all2 {A B} (a : Async A) (b : Async B) : Async (A * B) :=
  fun this =>
    let '(s1, ra) := a this in
    let '(s2, rb) := b s1 in
    (s2, match ra, rb with
         | Fulfilled x, Fulfilled y => Fulfilled (x, y)
         | Rejected e, _ => Rejected e
         | _, Rejected e => Rejected e
         | _, _ => Pending
         end).

Definition all3 {A B C} (a : Async A) (b : Async B) (c : Async C)
  : Async (A * B * C) :=
  fun this =>
    let '(s1, ra) := a this in
    let '(s2, rb) := b s1 in
    let '(s3, rc) := c s2 in
    (s3, match ra, rb, rc with
         | Fulfilled x, Fulfilled y, Fulfilled z => Fulfilled (x, y, z)
         | Rejected e, _, _ => Rejected e
         | _, Rejected e, _ => Rejected e
         | _, _, Rejected e => Rejected e
         | _, _, _ => Pending
         end).

Definition modify (f : PinManager -> PinManager) : Async unit :=
  fun this => (f this, Fulfilled tt).

Definition directKeys (this : PinManager) : list Buffer :=
  map (fun key => CID_buffer (CID_ofString key)) (directPins this).

Definition recursiveKeys (this : PinManager) : list Buffer :=
  map (fun key => CID_buffer (CID_ofString key)) (recursivePins this).

Definition set_dag (d : gmap string Node) (this : PinManager) : PinManager :=
  mkPinManager (repo this) d (directPins this) (recursivePins this).
Definition set_repo (r : Repo) (this : PinManager) : PinManager :=
  mkPinManager r (dag this) (directPins this) (recursivePins this).
Definition set_directPins (s : list string) (this : PinManager) : PinManager :=
  mkPinManager (repo this) (dag this) s (recursivePins this).
Definition set_recursivePins (s : list string) (this : PinManager)
  : PinManager :=
  mkPinManager (repo this) (dag this) (directPins this) s.

(** *** [_walkDag] *)

(** The children [walk] queues for a fetched node: the [Links] of a dag-pb
    node, the embedded links of a dag-cbor node, nothing for other codecs. *)
Definition walkLinks (cid : CID) (node : Node) : list CID :=
  match CID_codec cid with
  | DagPB =>
      match node with
      | PBNode dagPBNode => map Hash (Links dagPBNode)
      | _ => []
      end
  | DagCBOR => map snd (dagCborLinks node)
  | _ => []
  end.

Definition typeError : Error :=
  mkError "Cannot read property 'map' of undefined" "".

(** [node.Links.map] throws when a dag-pb CID comes with a value that has no
    [Links]. *)
Definition walkThrows (cid : CID) (node : Node) : option Error :=
  match CID_codec cid, node with
  | DagPB, PBNode _ => None
  | DagPB, _ => Some typeError
  | _, _ => None
  end.

(** One task [walk(cid)] of the queue.  The callback [onCid] is a closure: it
    may change the manager and the locals [L] it closes over. *)
Definition walk {L : Type} (preload : bool)
    (onCid : CID -> PinManager * L -> PinManager * L)
    (cid : CID) (w : PinManager * L)
  : PQueue.TaskEnd (PinManager * L) CID :=
  match dag_get (dag (fst w)) cid preload with
  | Err e => PQueue.mkTaskEnd w [] false (Some e)
  | Ok node =>
      let w' := onCid cid w in
      PQueue.mkTaskEnd w' (walkLinks cid node) false (walkThrows cid node)
  end.

Definition _walkDag {L : Type} (fuel : nat) (cid : CID) (preload : bool)
    (onCid : CID -> PinManager * L -> PinManager * L)
    (w : PinManager * L)
  : PQueue.Run (PinManager * L) :=
  PQueue.onIdle WALK_DAG_CONCURRENCY_LIMIT (walk preload onCid) fuel [cid] w [].

(** The promise [_walkDag] returns: [await queue.onIdle()] is its only way
    out. *)
Definition walkPromise {S : Type} (r : PQueue.Run S) : Promise unit :=
  if PQueue.idle r then Fulfilled tt else Pending.

(** *** [getIndirectKeys] *)

(** The [onCid] of [getIndirectKeys]; [indirectKeys] is the local set. *)
Definition indirectOnCid (input : CID) (w : PinManager * list string)
  : PinManager * list string :=
  let '(this, indirectKeys) := w in
  let cid := cidToString input in
  if negb (Set_has (recursivePins this) cid)
  then (this, Set_add indirectKeys cid)
  else (this, indirectKeys).

(** The [for ... of this.recursiveKeys()] loop: one walk after the other. *)
Fixpoint walkRoots (fuel : nat) (preload : bool) (roots : list Buffer)
    (w : PinManager * list string) : PinManager * Promise (list string) :=
  match roots with
  | [] => (fst w, Fulfilled (snd w))
  | multihash :: roots' =>
      let r := _walkDag fuel (CID_ofBuffer multihash) (preload || false)
                 indirectOnCid w in
      if PQueue.idle r then walkRoots fuel preload roots' (PQueue.final r)
      else (fst (PQueue.final r), Pending)
  end.

Definition getIndirectKeys (fuel : nat) (preload : bool)
  : Async (list string) :=
  fun this => walkRoots fuel preload (recursiveKeys this) (this, []).

(** *** [fetchCompleteDag] *)

Record FetchOptions := mkFetchOptions { preload : bool }.

Definition fetchCompleteDag (fuel : nat) (cid : CID) (options : FetchOptions)
  : Async unit :=
  fun this =>
    let r := _walkDag fuel cid (preload options) (fun _ w => w) (this, tt) in
    (fst (PQueue.final r), walkPromise r).

(** *** [flushPins] *)

(** [this.pinset.storeSet(keys)]: the codec writes its nodes through the DAG
    service of the manager. *)
Definition storeSetOf (pinset : PinSet) (keys : PinManager -> list Buffer)
  : Async StoreResult :=
  fun this =>
    match storeSet pinset (dag this) (keys this) with
    | Ok (d', result) => (set_dag d' this, Fulfilled result)
    | Err e => (this, Rejected e)
    end.

(** [this.dag.put(node, { version: 0, format: DAG_PB, ... })] *)
Definition dagPut (n : DAGNode) : Async CID :=
  fun this =>
    let '(d', c) := dag_put (dag this) n in
    (set_dag d' this, Fulfilled c).

Definition flushPins (pinset : PinSet) : Async unit :=
  '(dLink, rLink, _) ←
    all3
      (result ← storeSetOf pinset directKeys;
       mret (mkDAGLink (PinTypes direct) (DAGNode_size (node result))
               (cid result)))
      (result ← storeSetOf pinset recursiveKeys;
       mret (mkDAGLink (PinTypes recursive) (DAGNode_size (node result))
               (cid result)))
      (dagPut (mkDAGNode "" []));
  let rootNode := mkDAGNode "" [dLink; rLink] in
  rootCid ← dagPut rootNode;
  modify (fun this =>
            set_repo (datastore_put (repo this) PIN_DS_KEY (CID_buffer rootCid))
              this).

(** *** [load] *)

Definition loadSetOf (pinset : PinSet) (pinRoot : Node) (type : PinType)
  : Async (list CID) :=
  await (fun this => loadSet pinset (dag this) pinRoot (PinTypes type)).

Definition load (pinset : PinSet) : Async unit :=
  has ← await (fun this => Ok (datastore_has (repo this) PIN_DS_KEY));
  if negb has then mret tt
  else
    mh ← await (fun this => datastore_get (repo this) PIN_DS_KEY);
    pinRoot ← await (fun this => dag_get (dag this) (CID_ofBuffer mh) false);
    '(rKeys, dKeys) ←
      all2 (loadSetOf pinset pinRoot recursive)
           (loadSetOf pinset pinRoot direct);
    modify (set_directPins (Set_new (map cidToString dKeys)));;
    modify (set_recursivePins (Set_new (map cidToString rKeys))).

(** The collaborators as [load] calls them.  The datastore and the DAG
    service may sit on a disk or behind a network, so each call settles with
    a value or with an error of the collaborator's choosing; [new CID(mh)]
    throws when the bytes read are no CID; [Promise.all] rejects with the
    rejection that comes first in time, so when both [loadSet] calls reject,
    [directSettlesFirst] says whose error it is. *)
Record Collaborators := mkCollaborators {
  datastore_has_result : string -> Result bool;
  datastore_get_result : string -> Result Buffer;
  CID_ofBuffer_result : Buffer -> Result CID;
  dag_get_result : CID -> bool -> Result Node;
  loadSet_result : Node -> string -> Result (list CID);
  directSettlesFirst : bool
}.

(** [await Promise.all([a, b])] where either promise can settle first. *)
Definition all2_settling {A B} (secondFirst : bool) (a : Async A) (b : Async B)
  : Async (A * B) :=
  fun this =>
    let '(s1, ra) := a this in
    let '(s2, rb) := b s1 in
    (s2, match ra, rb with
         | Fulfilled x, Fulfilled y => Fulfilled (x, y)
         | Rejected ea, Rejected eb => Rejected (if secondFirst then eb else ea)
         | Rejected e, _ => Rejected e
         | _, Rejected e => Rejected e
         | _, _ => Pending
         end).

(** [load], line by line, against collaborators that can fail in any way:
    [this.repo.datastore], [this.dag] and [this.pinset] answer as [env]
    says. *)
Definition loadWith (env : Collaborators) : Async unit :=
  has ← await (fun _ => datastore_has_result env PIN_DS_KEY);
  if negb has then mret tt
  else
    mh ← await (fun _ => datastore_get_result env PIN_DS_KEY);
    rootCid ← await (fun _ => CID_ofBuffer_result env mh);
    pinRoot ← await (fun _ => dag_get_result env rootCid false);
    '(rKeys, dKeys) ←
      all2_settling (directSettlesFirst env)
        (await (fun _ => loadSet_result env pinRoot (PinTypes recursive)))
        (await (fun _ => loadSet_result env pinRoot (PinTypes direct)));
    modify (set_directPins (Set_new (map cidToString dKeys)));;
    modify (set_recursivePins (Set_new (map cidToString rKeys))).

(** The collaborators of a manager whose datastore and blocks are the
    in-memory ones of [this]. *)
Definition inMemory (pinset : PinSet) (this : PinManager) : Collaborators :=
  mkCollaborators
    (fun k => Ok (datastore_has (repo this) k))
    (datastore_get (repo this))
    (fun mh => Ok (CID_ofBuffer mh))
    (dag_get (dag this))
    (loadSet pinset (dag this))
    false.

(** *** [isPinnedWithType] *)

Inductive Reason :=
| ReasonString (s : string)
| ReasonCID (c : CID).

(** [PinInfo]; a [reason] of [None] is a missing or [undefined] one. *)
Record PinInfo := mkPinInfo {
  key : string;
  pinned : bool;
  reason : option Reason
}.

(** One task of the descendant scan; the state is the local [cid]. *)
Definition hasDescendantTask (pinset : PinSet) (this : PinManager)
    (childKey : Buffer) (cid : option CID)
  : PQueue.TaskEnd (option CID) Buffer :=
  let childCID := CID_ofBuffer childKey in
  let has := hasDescendant pinset (dag this) childKey childCID in
  if has then PQueue.mkTaskEnd (Some childCID) [] true None
  else PQueue.mkTaskEnd cid [] false None.

(** The queue of the scan: every task finishes, none adds another, so the
    number of tasks is fuel enough. *)
Definition scanRecursiveKeys (pinset : PinSet) (this : PinManager)
  : PQueue.Run (option CID) :=
  let tasks := recursiveKeys this in
  PQueue.onIdle IS_PINNED_WITH_TYPE_CONCURRENCY_LIMIT
    (hasDescendantTask pinset this) (length tasks) tasks None [].

Definition isPinnedWithType (pinset : PinSet) (multihash : CID)
    (type : PinType) : Async PinInfo :=
  fun this =>
    let key := cidToString multihash in
    if (bool_decide (type = recursive) || bool_decide (type = all))
       && Set_has (recursivePins this) key
    then (this, Fulfilled (mkPinInfo key true
                             (Some (ReasonString (PinTypes recursive)))))
    else if bool_decide (type = recursive)
    then (this, Fulfilled (mkPinInfo key false None))
    else if (bool_decide (type = direct) || bool_decide (type = all))
            && Set_has (directPins this) key
    then (this, Fulfilled (mkPinInfo key true
                             (Some (ReasonString (PinTypes direct)))))
    else if bool_decide (type = direct)
    then (this, Fulfilled (mkPinInfo key false None))
    else
      let r := scanRecursiveKeys pinset this in
      let cid := PQueue.final r in
      (this, if PQueue.idle r
             then Fulfilled (mkPinInfo key (bool_decide (is_Some cid))
                               (ReasonCID <$> cid))
             else Pending).

(** ** The pin-set codec *)

(** Modelled from the spec: the pin-set codec of [pin-set.js], which is not
    among the sources, in its flat form: [storeSet] builds one node with a
    link per key and persists it through [dag.put]. *)
Definition flat_storeSet (d : gmap string Node) (keys : list Buffer)
  : Result (gmap string Node * StoreResult) :=
  let n := mkDAGNode "" (map (fun k => mkDAGLink "" 0 (CID_ofBuffer k)) keys) in
  let '(d', c) := dag_put d n in
  Ok (d', mkStoreResult n c).

Definition decodeError (what : string) : Error :=
  mkError ("Invalid pin set: " +:+ what) "ERR_DECODE".

(** Modelled from the spec: [loadSet] of [pin-set.js] follows the link named
    by the pin type from the root and returns the set found there; a
    malformed node is a decode error. *)
Definition flat_loadSet (d : gmap string Node) (rootNode : Node)
    (name : string) : Result (list CID) :=
  match rootNode with
  | PBNode r =>
      match find (fun l => bool_decide (Name l = name)) (Links r) with
      | None => Err (decodeError ("no link named " +:+ name))
      | Some link =>
          match dag_get d (Hash link) false with
          | Err e => Err e
          | Ok (PBNode n) => Ok (map Hash (Links n))
          | Ok _ => Err (decodeError "not a dag-pb node")
          end
      end
  | _ => Err (decodeError "root is not a dag-pb node")
  end.

(** Modelled from the spec: [hasDescendant] of [pin-set.js] as a walk over
    the children of the root, each child looked at once. *)
Fixpoint searchChildren (d : gmap string Node) (childhash : CID)
    (fuel : nat) (queue : list CID) (seen : list string) : bool :=
  match fuel with
  | O => false
  | S fuel' =>
      match queue with
      | [] => false
      | parent :: rest =>
          match dag_get d parent false with
          | Err _ => searchChildren d childhash fuel' rest seen
          | Ok node =>
              let kids := walkLinks parent node in
              if bool_decide (childhash ∈ kids) then true
              else
                let fresh :=
                  remove_dups (filter (fun c => cid_str c ∉ seen) kids) in
                searchChildren d childhash fuel' (rest ++ fresh)
                  (seen ++ map cid_str fresh)
          end
      end
  end.

(** Every link of the store, counted: no search follows more. *)
Definition linkCount (d : gmap string Node) : nat :=
  map_fold (fun k n acc => length (walkLinks (mkCID k) n) + acc) 0 d.

Definition spec_hasDescendant (d : gmap string Node)
    (recursiveRootKey : Buffer) (candidateCid : CID) : bool :=
  searchChildren d candidateCid (S (linkCount d))
    [CID_ofBuffer recursiveRootKey] [].

Definition flatPinSet : PinSet :=
  mkPinSet flat_storeSet flat_loadSet spec_hasDescendant.

(** What the manager relies on from a codec.  In a store where a block sits
    under the CID of its content, [storeSet] succeeds and only adds blocks;
    what it stored is what [loadSet] finds behind a root link of that name,
    also after more blocks were added. *)
Definition content_addressed (d : gmap string Node) : Prop :=
  forall n m, d !! cid_str (cidOf n) = Some m -> m = PBNode n.

Record PinSetRoundTrip (pinset : PinSet) : Prop := mkPinSetRoundTrip {
  storeSet_adds :
    forall d keys, content_addressed d ->
      exists d' r, storeSet pinset d keys = Ok (d', r)
                   /\ d ⊆ d' /\ content_addressed d';
  loadSet_storeSet :
    forall d keys d' r d'' rootNode name,
      storeSet pinset d keys = Ok (d', r) ->
      d' ⊆ d'' ->
      (exists l, l ∈ Links rootNode /\ Name l = name) ->
      (forall l, l ∈ Links rootNode -> Name l = name -> Hash l = cid r) ->
      exists ks, loadSet pinset d'' (PBNode rootNode) name = Ok ks
                 /\ forall k, k ∈ map CID_buffer ks <-> k ∈ keys
}.

(** ** Reachability in the DAG *)

(** [fetches d c c']: the walk from [c] asks the DAG service for [c'],
    following the links of the nodes it could fetch. *)
Inductive fetches (d : gmap string Node) : CID -> CID -> Prop :=
| fetches_here c : fetches d c c
| fetches_link c n child c' :
    d !! cid_str c = Some n ->
    child ∈ walkLinks c n ->
    fetches d child c' ->
    fetches d c c'.

(** *** Reachability as the specification words it

    The definitions below do not mention [walkLinks], [dagCborLinks] or
    [cborLinks]: they say what a link is from the shape of the data alone. *)

Module Spec.

(** [embedded c v]: the CID [c] is embedded in the dag-cbor value [v]: [v]
    is a link to [c], or [c] is embedded in an item of the array [v] or in
    the value of an entry of the map [v]. *)
Inductive embedded (c : CID) : CborValue -> Prop :=
| embedded_link : embedded c (CborLink c)
| embedded_item items v :
    v ∈ items -> embedded c v -> embedded c (CborArray items)
| embedded_entry entries k v :
    (k, v) ∈ entries -> embedded c v -> embedded c (CborMap entries).

(** [linksTo n c]: the node [n] links to [c], through one of the [Links] of
    a dag-pb node or through a link embedded in a dag-cbor node. *)
Inductive linksTo : Node -> CID -> Prop :=
| linksTo_pb n l : l ∈ Links n -> linksTo (PBNode n) (Hash l)
| linksTo_cbor v c : embedded c v -> linksTo (CborNode v) c.

(** [reachable d c c']: [c'] is reachable from [c]: it is [c], or it is
    reachable from a CID the node stored under [c] links to.  The block of
    [c'] itself need not be in the store. *)
Inductive reachable (d : gmap string Node) : CID -> CID -> Prop :=
| reachable_here c : reachable d c c
| reachable_link c n child c' :
    d !! cid_str c = Some n ->
    linksTo n child ->
    reachable d child c' ->
    reachable d c c'.

End Spec.

(** The codec a node was decoded with. *)
Definition nodeCodec (n : Node) : Codec :=
  match n with
  | PBNode _ => DagPB
  | CborNode _ => DagCBOR
  | RawNode _ => Raw
  end.

(** The DAG service decodes every block with the codec its CID names. *)
Definition decoded_by_codec (d : gmap string Node) : Prop :=
  forall c n, d !! cid_str c = Some n -> CID_codec c = nodeCodec n.

(** A height function on the links of the store is what makes it a DAG. *)
Definition isDag (d : gmap string Node) (rank : CID -> nat) : Prop :=
  forall c n child,
    d !! cid_str c = Some n -> Spec.linksTo n child -> rank child < rank c.

(** The tasks a walk from [c] runs in a DAG of height at most [h] below
    [c]. *)
Fixpoint walkCost (d : gmap string Node) (h : nat) (c : CID) : nat :=
  match h with
  | O => 1
  | S h' =>
      match d !! cid_str c with
      | None => 1
      | Some n => S (sum_list (map (walkCost d h') (walkLinks c n)))
      end
  end.

(** A height function is what makes the store a DAG. *)
Definition acyclic (d : gmap string Node) (rank : CID -> nat) : Prop :=
  forall c n child,
    d !! cid_str c = Some n -> child ∈ walkLinks c n -> rank child < rank c.

(** What the walks from [queue] add to [indirectKeys]: the CIDs they fetched
    that are not recursive pins themselves. *)
Definition walked (this : PinManager) (queue : list CID) (k : string) : Prop :=
  exists c0 c', c0 ∈ queue /\ fetches (dag this) c0 c'
                /\ is_Some (dag this !! cid_str c')
                /\ k = cid_str c' /\ k ∉ recursivePins this.

(** The tasks ahead of a queue of the walk. *)
Definition queueCost (d : gmap string Node) (rank : CID -> nat)
    (queue : list CID) : nat :=
  sum_list (map (fun c => walkCost d (rank c) c) queue).

(** ** The scenario of the specification: [A -> [B, C]], [B -> [D]] *)

Definition cidA : CID := mkCID "QmA".
Definition cidB : CID := mkCID "QmB".
Definition cidC : CID := mkCID "QmC".
Definition cidD : CID := mkCID "QmD".
Definition cidZ : CID := mkCID "QmZ".

Definition linkTo (c : CID) : DAGLink := mkDAGLink "" 1 c.

Definition scenarioDag : gmap string Node :=
  <["QmA" := PBNode (mkDAGNode "a" [linkTo cidB; linkTo cidC])]>
  (<["QmB" := PBNode (mkDAGNode "b" [linkTo cidD])]>
  (<["QmC" := PBNode (mkDAGNode "c" [])]>
  (<["QmD" := PBNode (mkDAGNode "d" [])]> ∅))).

(** The manager with [recursivePins = {A}] and no direct pin. *)
Definition scenario : PinManager :=
  mkPinManager (mkRepo ∅) scenarioDag [] ["QmA"].

Definition scenarioRank (c : CID) : nat :=
  if decide (c = cidA) then 2
  else if decide (c = cidB) then 1
  else 0.

(** The same pins over a store that has lost the block of [B]. *)
Definition scenarioWithoutB : PinManager :=
  mkPinManager (mkRepo ∅) (delete "QmB" scenarioDag) [] ["QmA"].

(** A dag-cbor root [X] with links inside a map and an array, pinned
    recursively. *)
Definition cidX : CID := mkCID "bafyreiX".

Definition cborScenario : PinManager :=
  mkPinManager (mkRepo ∅)
    (<["bafyreiX" :=
         CborNode (CborMap [("title", CborAtom "x");
                            ("first", CborLink cidC);
                            ("rest", CborArray [CborLink cidB; CborAtom "y"])])]>
       scenarioDag)
    [] ["bafyreiX"].

(** Heights in the store of [cborScenario]. *)
Definition cborRank (c : CID) : nat :=
  if decide (c = cidX) then 3 else scenarioRank c.

(** A manager with pins and nothing persisted yet. *)
Definition unflushed : PinManager :=
  mkPinManager (mkRepo ∅) ∅ ["QmA"; "QmB"] ["QmC"].

(** A manager where [B] is a recursive root of its own, below the root [A]. *)
Definition nestedRoots : PinManager :=
  mkPinManager (mkRepo ∅) scenarioDag [] ["QmA"; "QmB"].

(** A manager where [A] is pinned both ways. *)
Definition pinnedBothWays : PinManager :=
  mkPinManager (mkRepo ∅) scenarioDag ["QmA"] ["QmA"].

(** A codec whose [hasDescendant] says yes to everything. *)
Definition eagerPinSet : PinSet :=
  mkPinSet flat_storeSet flat_loadSet (fun _ _ _ => true).

(** A repo whose pin-root key names a block the DAG service does not have. *)
Definition danglingRoot : PinManager :=
  mkPinManager (mkRepo (<[PIN_DS_KEY := mkBuffer "QmMissing"]> ∅)) ∅
    ["QmA"] ["QmC"].

(** A repo whose pin root decodes to a node without the two links. *)
Definition malformedRoot : PinManager :=
  mkPinManager (mkRepo (<[PIN_DS_KEY := mkBuffer "QmRoot"]> ∅))
    (<["QmRoot" := PBNode (mkDAGNode "" [])]> ∅)
    ["QmA"] ["QmC"].

(** A datastore that cannot be read, whatever it holds. *)
Definition ioError : Error :=
  mkError "read /local/pins: input/output error" "EIO".

Definition unreadable : Collaborators :=
  mkCollaborators (fun _ => Err ioError) (fun _ => Err ioError)
    (fun mh => Ok (CID_ofBuffer mh)) (dag_get ∅) (fun _ _ => Ok []) false.

(** A datastore that has the key and fails to hand its value out. *)
Definition halfReadable : Collaborators :=
  mkCollaborators (fun _ => Ok true) (fun _ => Err ioError)
    (fun mh => Ok (CID_ofBuffer mh)) (dag_get ∅) (fun _ _ => Ok []) false.

(** A pin root both of whose sets fail to decode, the direct one first. *)
Definition undecodable : Collaborators :=
  mkCollaborators (fun _ => Ok true) (fun _ => Ok (mkBuffer "QmRoot"))
    (fun mh => Ok (CID_ofBuffer mh))
    (fun _ _ => Ok (RawNode ""))
    (fun _ type => Err (mkError ("cannot decode " +:+ type) "ERR_DECODE"))
    true.

Ltac unfold_async :=
  unfold mbind, mret, Async_bind, Async_ret, bind, ret, await, all2, all3,
    all2_settling, modify in *.

(** ** [getInternalBlocks] *)

(** [getInternalCids] of the object [createPinSet] returns: the CIDs of the
    blocks the encoding itself uses, read from the pin root. *)
Definition InternalCids : Type :=
  gmap string Node -> Node -> Result (list CID).

(** The [catch] around the read of the pin root: a missing key is no error,
    any other failure is wrapped in a new [Error]. *)
Definition getInternalBlocks (getInternalCids : InternalCids)
  : Async (list CID) :=
  fun this =>
    match datastore_get (repo this) PIN_DS_KEY with
    | Err err =>
        if bool_decide (code err = ERR_NOT_FOUND)
        then (this, Fulfilled [])
        else (this,
              Rejected
                (mkError ("Could not get pin sets root from datastore: "
                            +:+ message err) ""))
    | Ok mh =>
        let cid := CID_ofBuffer mh in
        (obj ← await (fun this => dag_get (dag this) cid false);
         cids ← await (fun this => getInternalCids (dag this) obj);
         mret (cids ++ [cid])) this
    end.

(** Modelled from the spec: [getInternalCids] of [pin-set.js] for the flat
    encoding: the two set nodes the root links to and the empty node. *)
Definition flat_getInternalCids : InternalCids :=
  fun d rootNode =>
    match rootNode with
    | PBNode r => Ok (map Hash (Links r) ++ [cidOf (mkDAGNode "" [])])
    | _ => Err (decodeError "root is not a dag-pb node")
    end.

(** ** Counting what a walk does *)

(** An [onCid] that counts its calls. *)
Definition countOnCid (input : CID) (w : PinManager * nat)
  : PinManager * nat :=
  (fst w, S (snd w)).

(** The paths that lead from [c] to a block the DAG service holds, [c]
    itself included, in a DAG of height at most [h] below [c]. *)
Fixpoint walkVisits (d : gmap string Node) (h : nat) (c : CID) : nat :=
  match d !! cid_str c with
  | None => 0
  | Some n =>
      match h with
      | O => 1
      | S h' => S (sum_list (map (walkVisits d h') (walkLinks c n)))
      end
  end.

(** A codec for which storing a set again, in a store that still holds what
    the first store wrote, writes nothing and returns the same node. *)
Definition storeSet_stable (pinset : PinSet) : Prop :=
  forall d keys d' r d'',
    storeSet pinset d keys = Ok (d', r) ->
    d' ⊆ d'' ->
    storeSet pinset d'' keys = Ok (d'', r).

(** A diamond: [A -> [B, C]], [B -> [D]], [C -> [D]]. *)
Definition diamond : PinManager :=
  mkPinManager (mkRepo ∅)
    (<["QmA" := PBNode (mkDAGNode "a" [linkTo cidB; linkTo cidC])]>
    (<["QmB" := PBNode (mkDAGNode "b" [linkTo cidD])]>
    (<["QmC" := PBNode (mkDAGNode "c" [linkTo cidD])]>
    (<["QmD" := PBNode (mkDAGNode "d" [])]> ∅))))
    [] ["QmA"].

(** A store in which the block of [A] links to [A]. *)
Definition selfLinked : PinManager :=
  mkPinManager (mkRepo ∅)
    (<["QmA" := PBNode (mkDAGNode "a" [linkTo cidA])]> ∅)
    [] ["QmA"].

(** The scenario with [D], a block below the recursive root [A], pinned
    directly as well. *)
Definition directBelowRoot : PinManager :=
  mkPinManager (mkRepo ∅) scenarioDag ["QmD"] ["QmA"].

(** A codec whose [storeSet] always fails. *)
Definition brokenPinSet : PinSet :=
  mkPinSet (fun _ _ => Err (decodeError "store failed")) flat_loadSet
    spec_hasDescendant.

(** A repo with a pin root written earlier: [A] pinned directly, [C]
    recursively; the manager itself has loaded nothing yet. *)
Definition persisted : PinManager :=
  mkPinManager (mkRepo (<[PIN_DS_KEY := mkBuffer "QmPinRoot"]> ∅))
    (<["QmPinRoot" :=
         PBNode (mkDAGNode ""
                   [mkDAGLink "direct" 1 (mkCID "QmDirectSet");
                    mkDAGLink "recursive" 1 (mkCID "QmRecursiveSet")])]>
    (<["QmDirectSet" := PBNode (mkDAGNode "" [mkDAGLink "" 0 cidA])]>
    (<["QmRecursiveSet" := PBNode (mkDAGNode "" [mkDAGLink "" 0 cidC])]> ∅)))
    [] [].

Definition diamondRank (c : CID) : nat :=
  if decide (c = cidA) then 2
  else if decide (c = cidB) then 1
  else if decide (c = cidC) then 1
  else 0.

(** Two states of the walks of [getIndirectKeys] that differ at most in
    [directPins] and in the repo. *)
Definition sameButDirectPins (w1 w2 : PinManager * list string) : Prop :=
  dag (fst w1) = dag (fst w2)
  /\ recursivePins (fst w1) = recursivePins (fst w2)
  /\ snd w1 = snd w2.

(** * Properties *)

(** ** Sets and queues *)

Lemma Set_has_true s k : Set_has s k = true <-> k ∈ s.
Proof. unfold Set_has. apply bool_decide_eq_true. Qed.

Lemma Set_has_false s k : Set_has s k = false <-> k ∉ s.
Proof. unfold Set_has. apply bool_decide_eq_false. Qed.

Lemma Set_add_elem s k x : x ∈ Set_add s k <-> x ∈ s \/ x = k.
Proof.
  unfold Set_add. destruct (Set_has s k) eqn:E.
  - apply Set_has_true in E. split; [by left | intros [? | ->]; done].
  - rewrite elem_of_app, list_elem_of_singleton. done.
Qed.

Lemma Set_add_NoDup s k : NoDup s -> NoDup (Set_add s k).
Proof.
  intros Hs. unfold Set_add. destruct (Set_has s k) eqn:E; [done|].
  apply Set_has_false in E. apply list.NoDup_app. split; [done|]. split.
  - intros x Hx ->%list_elem_of_singleton. done.
  - apply list.NoDup_singleton.
Qed.

Lemma Set_new_from acc l x :
  x ∈ foldl Set_add acc l <-> x ∈ acc \/ x ∈ l.
Proof.
  revert acc. induction l as [|a l IH]; intros acc; simpl.
  - rewrite elem_of_nil. tauto.
  - rewrite IH, Set_add_elem, elem_of_cons. tauto.
Qed.

Lemma Set_new_elem l x : x ∈ Set_new l <-> x ∈ l.
Proof. unfold Set_new. rewrite Set_new_from, elem_of_nil. tauto. Qed.

(** A run of the queue keeps whatever every task keeps. *)
Lemma onIdle_preserves {S T : Type} (P : S -> Prop) conc
    (runTask : T -> S -> PQueue.TaskEnd S T) :
  (forall t s, P s -> P (PQueue.state (runTask t s))) ->
  forall fuel queue s errs,
    P s -> P (PQueue.final (PQueue.onIdle conc runTask fuel queue s errs)).
Proof.
  intros Hrun fuel. induction fuel as [|fuel IH]; intros queue s errs Hs.
  - destruct queue; exact Hs.
  - destruct queue as [|t rest]; [exact Hs|].
    simpl. apply IH, Hrun, Hs.
Qed.

(** A task of the walk changes the state through [onCid] only. *)
Lemma walk_state {L : Type} preload
    (onCid : CID -> PinManager * L -> PinManager * L) c w :
  PQueue.state (walk preload onCid c w) = w
  \/ PQueue.state (walk preload onCid c w) = onCid c w.
Proof.
  unfold walk. destruct (dag_get _ _ _); simpl; [by right | by left].
Qed.

(** ** [checkPinType] *)




(** The scenario of the specification: ['bogus'] is refused, ['all'] is
    accepted, and a value that is no string is refused. *)
Example checkPinType_bogus :
  checkPinType (JSString "bogus")
  = Ok (Some (mkError
                "Invalid type 'bogus', must be one of {direct, indirect, recursive, all}"
                "ERR_INVALID_PIN_TYPE"))
  /\ checkPinType (JSString "all") = Ok None
  /\ checkPinType JSUndefined
     = Ok (Some (mkError
                   "Invalid type 'undefined', must be one of {direct, indirect, recursive, all}"
                   "ERR_INVALID_PIN_TYPE")).
Proof. by vm_compute. Qed.

(** ** [isPinnedWithType] *)

(** C2: a query of type ['recursive'] is answered from [recursivePins] alone
    and a query of type ['direct'] from [directPins] alone: [pinned] is true
    exactly for a member, the reason of a positive answer is the name of the
    pin type, and the key is the canonical string of the CID.  The manager is
    left as it was. *)
Theorem isPinnedWithType_recursive_direct (pinset : PinSet)
    (this : PinManager) (c : CID) :
  (exists info,
      isPinnedWithType pinset c recursive this = (this, Fulfilled info)
      /\ key info = cidToString c
      /\ (pinned info = true <-> cidToString c ∈ recursivePins this)
      /\ (pinned info = true -> reason info = Some (ReasonString "recursive")))
  /\ (exists info,
        isPinnedWithType pinset c direct this = (this, Fulfilled info)
        /\ key info = cidToString c
        /\ (pinned info = true <-> cidToString c ∈ directPins this)
        /\ (pinned info = true -> reason info = Some (ReasonString "direct"))).
Proof.
  split; unfold isPinnedWithType; simpl.
  - destruct (Set_has (recursivePins this) (cidToString c)) eqn:E;
      eexists; (split; [reflexivity|]); simpl; (split; [reflexivity|]).
    + apply Set_has_true in E. tauto.
    + apply Set_has_false in E. split; [|discriminate].
      split; [discriminate | done].
  - destruct (Set_has (directPins this) (cidToString c)) eqn:E;
      eexists; (split; [reflexivity|]); simpl; (split; [reflexivity|]).
    + apply Set_has_true in E. tauto.
    + apply Set_has_false in E. split; [|discriminate].
      split; [discriminate | done].
Qed.

(** C3: a CID that is itself in [recursivePins] is reported as ['recursive']
    by a query of type ['all'], whatever the codec's [hasDescendant] would
    say: the membership test answers before any descendant scan. *)
Theorem isPinnedWithType_all_recursive_first (pinset : PinSet)
    (this : PinManager) (c : CID) :
  cidToString c ∈ recursivePins this ->
  isPinnedWithType pinset c all this
  = (this, Fulfilled (mkPinInfo (cidToString c) true
                        (Some (ReasonString "recursive")))).
Proof.
  intros Hin. apply Set_has_true in Hin.
  unfold isPinnedWithType. simpl. by rewrite Hin.
Qed.

(** [B] is a recursive root and also lies below the recursive root [A]; the
    codec here would confirm any descendant.  [B] is still ['recursive']. *)
Lemma isPinnedWithType_all_recursive_first_witness :
  cidToString cidB ∈ recursivePins nestedRoots
  /\ hasDescendant eagerPinSet (dag nestedRoots) (CID_buffer cidA) cidB = true
  /\ isPinnedWithType eagerPinSet cidB all nestedRoots
     = (nestedRoots, Fulfilled (mkPinInfo "QmB" true
                                  (Some (ReasonString "recursive")))).
Proof.
  assert (Hin : cidToString cidB ∈ recursivePins nestedRoots).
  { apply Set_has_true. reflexivity. }
  split; [exact Hin|]. split; [reflexivity|].
  exact (isPinnedWithType_all_recursive_first eagerPinSet nestedRoots cidB Hin).
Defined.

(** C10: a CID in both [recursivePins] and [directPins] is reported with
    reason ['recursive'] by a query of type ['all']: the recursive test comes
    before the direct one. *)
Theorem isPinnedWithType_all_recursive_over_direct (pinset : PinSet)
    (this : PinManager) (c : CID) :
  cidToString c ∈ recursivePins this ->
  cidToString c ∈ directPins this ->
  exists info,
    isPinnedWithType pinset c all this = (this, Fulfilled info)
    /\ pinned info = true
    /\ reason info = Some (ReasonString (PinTypes recursive))
    /\ reason info <> Some (ReasonString (PinTypes direct)).
Proof.
  intros Hr%Set_has_true _.
  unfold isPinnedWithType. simpl. rewrite Hr.
  eexists. split; [reflexivity|]. simpl. by repeat split.
Qed.

Lemma isPinnedWithType_all_recursive_over_direct_witness :
  exists info,
    isPinnedWithType flatPinSet cidA all pinnedBothWays
    = (pinnedBothWays, Fulfilled info)
    /\ pinned info = true
    /\ reason info = Some (ReasonString "recursive")
    /\ reason info <> Some (ReasonString "direct").
Proof.
  apply (isPinnedWithType_all_recursive_over_direct flatPinSet
           pinnedBothWays cidA).
  - apply Set_has_true. reflexivity.
  - apply Set_has_true. reflexivity.
Defined.

(** ** [fetchCompleteDag] *)

(** C9: [fetchCompleteDag] leaves the manager as it found it, however far
    the walk gets: [directPins], [recursivePins], the datastore with its
    pin-root key and the blocks of the DAG service are the same before and
    after, and at every point in between. *)
Theorem fetchCompleteDag_frame (fuel : nat) (cid : CID)
    (options : FetchOptions) (this : PinManager) :
  fst (fetchCompleteDag fuel cid options this) = this
  /\ directPins (fst (fetchCompleteDag fuel cid options this))
     = directPins this
  /\ recursivePins (fst (fetchCompleteDag fuel cid options this))
     = recursivePins this
  /\ datastore (repo (fst (fetchCompleteDag fuel cid options this)))
       !! PIN_DS_KEY
     = datastore (repo this) !! PIN_DS_KEY.
Proof.
  assert (H : fst (fetchCompleteDag fuel cid options this) = this).
  { unfold fetchCompleteDag, _walkDag. simpl.
    apply (onIdle_preserves (fun w : PinManager * unit => fst w = this));
      [|reflexivity].
    intros t s Hs. destruct (walk_state (preload options) (fun _ w => w) t s)
      as [-> | ->]; exact Hs. }
  rewrite H. done.
Qed.

(** The scenario: fetching the DAG of [A] ends and changes nothing. *)
Example fetchCompleteDag_scenario :
  fetchCompleteDag 10 cidA (mkFetchOptions false) scenario
  = (scenario, Fulfilled tt).
Proof. by vm_compute. Qed.

(** ** [load] *)

(** C6: [load], whatever its collaborators answer.  Without the pin-root
    key in the datastore it does nothing and succeeds.  When the datastore
    read ([has] or [get]), the making of the root CID, the fetch of the pin
    root or the decoding of one of the two sets fails, [load] is rejected
    with that very error (with the earlier of the two when both decodings
    fail) and the manager is exactly what it was.  The two sets are
    replaced, both at once, only when both have been decoded.  [load] on the
    in-memory datastore and blocks is the instance [inMemory]. *)
Theorem load_absent_or_failed (env : Collaborators) (this : PinManager) :
  (forall pinset, load pinset this = loadWith (inMemory pinset this) this)
  /\ (datastore_has_result env PIN_DS_KEY = Ok false ->
        loadWith env this = (this, Fulfilled tt))
  /\ (forall e, datastore_has_result env PIN_DS_KEY = Err e ->
        loadWith env this = (this, Rejected e))
  /\ (datastore_has_result env PIN_DS_KEY = Ok true ->
        (forall e, datastore_get_result env PIN_DS_KEY = Err e ->
           loadWith env this = (this, Rejected e))
        /\ (forall mh, datastore_get_result env PIN_DS_KEY = Ok mh ->
              (forall e, CID_ofBuffer_result env mh = Err e ->
                 loadWith env this = (this, Rejected e))
              /\ (forall rootCid, CID_ofBuffer_result env mh = Ok rootCid ->
                    (forall e, dag_get_result env rootCid false = Err e ->
                       loadWith env this = (this, Rejected e))
                    /\ (forall pinRoot,
                          dag_get_result env rootCid false = Ok pinRoot ->
                          loadWith env this
                          = match loadSet_result env pinRoot "recursive",
                                  loadSet_result env pinRoot "direct" with
                            | Ok rKeys, Ok dKeys =>
                                (mkPinManager (repo this) (dag this)
                                   (Set_new (map cidToString dKeys))
                                   (Set_new (map cidToString rKeys)),
                                 Fulfilled tt)
                            | Err e, Ok _ => (this, Rejected e)
                            | Ok _, Err e => (this, Rejected e)
                            | Err e1, Err e2 =>
                                (this,
                                 Rejected (if directSettlesFirst env
                                           then e2 else e1))
                            end))))
  /\ (forall this' e, loadWith env this = (this', Rejected e) -> this' = this)
  /\ snd (loadWith env this) <> Pending.
Proof.
  split.
  { intros pinset. unfold load, loadWith, loadSetOf, inMemory. unfold_async.
    simpl.
    destruct (datastore_has (repo this) PIN_DS_KEY); simpl; [|done].
    destruct (datastore_get (repo this) PIN_DS_KEY) as [mh|?]; [|done].
    destruct (dag_get (dag this) (CID_ofBuffer mh) false) as [pinRoot|?];
      [|done].
    destruct (loadSet pinset (dag this) pinRoot "recursive"),
             (loadSet pinset (dag this) pinRoot "direct"); done. }
  unfold loadWith. unfold_async. simpl.
  destruct (datastore_has_result env PIN_DS_KEY) as [[|]|e0] eqn:Hhas; simpl.
  2:{ repeat split; try done; intros; by simplify_eq. }
  2:{ repeat split; try done; intros; by simplify_eq. }
  destruct (datastore_get_result env PIN_DS_KEY) as [mh|e1] eqn:Hget.
  2:{ repeat split; try done; intros; by simplify_eq. }
  destruct (CID_ofBuffer_result env mh) as [rootCid|e5] eqn:Hcid.
  2:{ repeat split; try done; intros; simplify_eq; try done.
      all: match goal with
           | H : CID_ofBuffer_result _ _ = _ |- _ => rewrite Hcid in H
           end; by simplify_eq. }
  destruct (dag_get_result env rootCid false) as [pinRoot|e2] eqn:Hroot.
  2:{ repeat split; try done; intros; simplify_eq; try done.
      all: match goal with
           | H : CID_ofBuffer_result _ _ = _ |- _ => rewrite Hcid in H
           end; simplify_eq; try done.
      all: match goal with
           | H : dag_get_result _ _ _ = _ |- _ => rewrite Hroot in H
           end; by simplify_eq. }
  destruct (loadSet_result env pinRoot "recursive") as [rKeys|e3] eqn:Hr;
  destruct (loadSet_result env pinRoot "direct") as [dKeys|e4] eqn:Hd;
    simpl.
  all: repeat split; try done; intros; simplify_eq; try done.
  all: match goal with
       | H : CID_ofBuffer_result _ _ = _ |- _ => rewrite Hcid in H
       end; simplify_eq; try done.
  all: match goal with
       | H : dag_get_result _ _ _ = _ |- _ => rewrite Hroot in H
       end; simplify_eq; try done.
  all: by rewrite Hr, Hd.
Qed.

(** A fresh repo loads as a no-op.  A datastore that cannot be read, a pin
    root that cannot be fetched and one that cannot be decoded make [load]
    fail with the collaborator's error and leave the pins as they were. *)
Lemma load_absent_or_failed_witness :
  load flatPinSet unflushed = (unflushed, Fulfilled tt)
  /\ loadWith unreadable unflushed = (unflushed, Rejected ioError)
  /\ loadWith halfReadable unflushed = (unflushed, Rejected ioError)
  /\ load flatPinSet danglingRoot
     = (danglingRoot, Rejected (notFoundError "QmMissing"))
  /\ load flatPinSet malformedRoot
     = (malformedRoot, Rejected (decodeError "no link named recursive"))
  /\ loadWith undecodable unflushed
     = (unflushed, Rejected (mkError "cannot decode direct" "ERR_DECODE")).
Proof.
  split; [|split; [|split; [|split; [|split]]]].
  - destruct (load_absent_or_failed (inMemory flatPinSet unflushed) unflushed)
      as (Hload & Habsent & _).
    rewrite Hload. by apply Habsent.
  - destruct (load_absent_or_failed unreadable unflushed) as (_ & _ & Hhas & _).
    by apply Hhas.
  - destruct (load_absent_or_failed halfReadable unflushed)
      as (_ & _ & _ & Hget & _).
    by apply Hget.
  - destruct (load_absent_or_failed (inMemory flatPinSet danglingRoot)
                danglingRoot) as (Hload & _ & _ & Hget & _).
    rewrite Hload.
    destruct (Hget eq_refl) as [_ Hmh].
    destruct (Hmh (mkBuffer "QmMissing") eq_refl) as [_ Hcid].
    destruct (Hcid (mkCID "QmMissing") eq_refl) as [Hroot _].
    by apply Hroot.
  - destruct (load_absent_or_failed (inMemory flatPinSet malformedRoot)
                malformedRoot) as (Hload & _ & _ & Hget & _).
    rewrite Hload.
    destruct (Hget eq_refl) as [_ Hmh].
    destruct (Hmh (mkBuffer "QmRoot") eq_refl) as [_ Hcid].
    destruct (Hcid (mkCID "QmRoot") eq_refl) as [_ Hroot].
    by rewrite (Hroot (PBNode (mkDAGNode "" [])) eq_refl).
  - destruct (load_absent_or_failed undecodable unflushed)
      as (_ & _ & _ & Hget & _).
    destruct (Hget eq_refl) as [_ Hmh].
    destruct (Hmh (mkBuffer "QmRoot") eq_refl) as [_ Hcid].
    destruct (Hcid (mkCID "QmRoot") eq_refl) as [_ Hroot].
    by rewrite (Hroot (RawNode "") eq_refl).
Defined.

(** ** The walk *)

Lemma elem_of_map {A B : Type} (f : A -> B) (l : list A) (y : B) :
  y ∈ map f l <-> exists x, y = f x /\ x ∈ l.
Proof.
  induction l as [|a l IH]; simpl.
  - split; [intros H%elem_of_nil; done | intros [x [_ H%elem_of_nil]]; done].
  - rewrite elem_of_cons, IH. split.
    + intros [-> | [x [-> Hx]]]; [exists a | exists x];
        (split; [done|]); rewrite elem_of_cons; auto.
    + intros [x [-> [-> | Hx]%elem_of_cons]]; [by left | right; eauto].
Qed.

Lemma queueCost_app d rank q1 q2 :
  queueCost d rank (q1 ++ q2) = queueCost d rank q1 + queueCost d rank q2.
Proof.
  unfold queueCost. induction q1 as [|c q1 IH]; simpl; [done|].
  rewrite IH. lia.
Qed.

Lemma walkCost_pos d h c : 1 <= walkCost d h c.
Proof. destruct h; simpl; [lia|]. destruct (d !! cid_str c); lia. Qed.

Lemma sum_list_map_le {A : Type} (f g : A -> nat) (l : list A) :
  (forall x, x ∈ l -> f x <= g x) ->
  sum_list (map f l) <= sum_list (map g l).
Proof.
  induction l as [|a l IH]; intros H; simpl; [lia|].
  pose proof (H a (list_elem_of_here _ _)).
  assert (sum_list (map f l) <= sum_list (map g l)).
  { apply IH. intros x Hx. apply H. by apply list_elem_of_further. }
  lia.
Qed.

Lemma walkCost_step d h c : walkCost d h c <= walkCost d (S h) c.
Proof.
  revert c. induction h as [|h IH]; intros c.
  - simpl. destruct (d !! cid_str c); lia.
  - change (walkCost d (S (S h)) c) with
      (match d !! cid_str c with
       | None => 1
       | Some n => S (sum_list (map (walkCost d (S h)) (walkLinks c n)))
       end).
    change (walkCost d (S h) c) with
      (match d !! cid_str c with
       | None => 1
       | Some n => S (sum_list (map (walkCost d h) (walkLinks c n)))
       end).
    destruct (d !! cid_str c) as [n|]; [|lia].
    apply le_n_S, sum_list_map_le. intros x _. apply IH.
Qed.

Lemma walkCost_mono d h h' c : h <= h' -> walkCost d h c <= walkCost d h' c.
Proof.
  induction 1 as [|h' _ IH]; [lia|].
  etrans; [exact IH | apply walkCost_step].
Qed.

(** Below a fetched node the walk costs less than at the node. *)
Lemma walkCost_links d rank c n :
  acyclic d rank ->
  d !! cid_str c = Some n ->
  S (queueCost d rank (walkLinks c n)) <= walkCost d (rank c) c.
Proof.
  intros Hacyc Hc. unfold queueCost.
  destruct (rank c) as [|h] eqn:Hrank.
  - destruct (walkLinks c n) as [|child l] eqn:Hl; simpl.
    + lia.
    + assert (rank child < rank c).
      { apply (Hacyc c n child Hc). rewrite Hl. apply list_elem_of_here. }
      lia.
  - simpl. rewrite Hc. apply le_n_S, sum_list_map_le.
    intros child Hchild. apply walkCost_mono.
    pose proof (Hacyc c n child Hc Hchild). lia.
Qed.

Lemma onIdle_cons {S T : Type} conc (runTask : T -> S -> PQueue.TaskEnd S T)
    fuel t rest s errs :
  PQueue.onIdle conc runTask (Datatypes.S fuel) (t :: rest) s errs
  = PQueue.onIdle conc runTask fuel
      ((if PQueue.cleared (runTask t s) then take (conc - 1) rest else rest)
         ++ PQueue.added (runTask t s))
      (PQueue.state (runTask t s))
      (match PQueue.thrown (runTask t s) with
       | Some err => errs ++ [err]
       | None => errs
       end).
Proof. reflexivity. Qed.

Lemma walk_fetched {L : Type} preload
    (onCid : CID -> PinManager * L -> PinManager * L) c w n :
  dag (fst w) !! cid_str c = Some n ->
  walk preload onCid c w
  = PQueue.mkTaskEnd (onCid c w) (walkLinks c n) false (walkThrows c n).
Proof. intros H. unfold walk, dag_get. by rewrite H. Qed.

Lemma walk_failed {L : Type} preload
    (onCid : CID -> PinManager * L -> PinManager * L) c w :
  dag (fst w) !! cid_str c = None ->
  walk preload onCid c w
  = PQueue.mkTaskEnd w [] false (Some (notFoundError (cid_str c))).
Proof. intros H. unfold walk, dag_get. by rewrite H. Qed.

Section Walk.
Context {L : Type}.
Variable d : gmap string Node.
Variable conc : nat.
Variable preload : bool.
Variable onCid : CID -> PinManager * L -> PinManager * L.
Hypothesis onCid_dag : forall c w, dag (fst w) = d -> dag (fst (onCid c w)) = d.

(** With fuel for every task, the queue of a walk over a DAG goes idle,
    whichever fetches fail. *)
Lemma walk_idle rank :
  acyclic d rank ->
  forall fuel queue w errs,
    dag (fst w) = d ->
    queueCost d rank queue <= fuel ->
    PQueue.idle (PQueue.onIdle conc (walk preload onCid) fuel queue w errs)
    = true.
Proof.
  intros Hacyc fuel.
  induction fuel as [|fuel IH]; intros queue w errs Hw Hfuel.
  - destruct queue as [|c rest]; [done|].
    unfold queueCost in Hfuel. simpl in Hfuel.
    pose proof (walkCost_pos d (rank c) c). lia.
  - destruct queue as [|c rest]; [done|].
    change (queueCost d rank (c :: rest))
      with (walkCost d (rank c) c + queueCost d rank rest) in Hfuel.
    rewrite onIdle_cons.
    destruct (d !! cid_str c) as [n|] eqn:Hc.
    + rewrite (walk_fetched _ _ _ _ n) by (by rewrite Hw). simpl.
      apply IH; [by apply onCid_dag|].
      rewrite queueCost_app.
      pose proof (walkCost_links d rank c n Hacyc Hc). lia.
    + rewrite walk_failed by (by rewrite Hw). simpl. rewrite app_nil_r.
      apply IH; [done|]. pose proof (walkCost_pos d (rank c) c). lia.
Qed.

(** The rejections on record only grow. *)
Lemma onIdle_unhandled_mono fuel queue (w : PinManager * L) errs e :
  e ∈ errs ->
  e ∈ PQueue.unhandled
        (PQueue.onIdle conc (walk preload onCid) fuel queue w errs).
Proof.
  revert queue w errs.
  induction fuel as [|fuel IH]; intros queue w errs He.
  - destruct queue; exact He.
  - destruct queue as [|c rest]; [exact He|].
    rewrite onIdle_cons. apply IH.
    destruct (PQueue.thrown _); [|exact He].
    apply elem_of_app. by left.
Qed.

(** Every fetch the walk gets to and that fails leaves its error among the
    rejections nothing awaits. *)
Lemma walk_unhandled :
  forall fuel queue w errs,
    dag (fst w) = d ->
    PQueue.idle (PQueue.onIdle conc (walk preload onCid) fuel queue w errs)
    = true ->
    forall c0 c' e,
      c0 ∈ queue -> fetches d c0 c' -> dag_get d c' preload = Err e ->
      e ∈ PQueue.unhandled
            (PQueue.onIdle conc (walk preload onCid) fuel queue w errs).
Proof.
  intros fuel.
  induction fuel as [|fuel IH]; intros queue w errs Hw Hidle c0 c' e Hin Hreach He.
  - destruct queue; [by apply elem_of_nil in Hin | discriminate].
  - destruct queue as [|c rest]; [by apply elem_of_nil in Hin|].
    rewrite onIdle_cons in Hidle |- *.
    destruct (d !! cid_str c) as [n|] eqn:Hc.
    + rewrite (walk_fetched _ _ _ _ n) in Hidle |- * by (by rewrite Hw).
      simpl in Hidle |- *.
      apply elem_of_cons in Hin as [-> | Hin].
      * destruct Hreach as [c | c n' child c' Hc' Hchild Hreach].
        { unfold dag_get in He. rewrite Hc in He. discriminate. }
        rewrite Hc in Hc'. injection Hc' as <-.
        apply (IH _ _ _ (onCid_dag _ _ Hw) Hidle child c' e); [|done|done].
        apply elem_of_app. by right.
      * apply (IH _ _ _ (onCid_dag _ _ Hw) Hidle c0 c' e); [|done|done].
        apply elem_of_app. by left.
    + rewrite walk_failed in Hidle |- * by (by rewrite Hw).
      simpl in Hidle |- *.
      apply elem_of_cons in Hin as [-> | Hin].
      * destruct Hreach as [c | c n' child c' Hc' Hchild Hreach].
        { apply onIdle_unhandled_mono. unfold dag_get in He.
          rewrite Hc in He. injection He as <-.
          apply elem_of_app. right. apply list_elem_of_here. }
        rewrite Hc in Hc'. discriminate.
      * rewrite app_nil_r in Hidle |- *.
        by apply (IH _ _ _ Hw Hidle c0 c' e).
Qed.

End Walk.
(** ** [getIndirectKeys] *)

Lemma indirectOnCid_dag (d : gmap string Node) c (w : PinManager * list string) :
  dag (fst w) = d -> dag (fst (indirectOnCid c w)) = d.
Proof.
  destruct w as [this keys]. unfold indirectOnCid.
  by destruct (negb _).
Qed.

Section IndirectKeys.
Variable this : PinManager.
Variable conc : nat.
Variable preload : bool.

Lemma walked_app q1 q2 k : walked this (q1 ++ q2) k <-> walked this q1 k \/ walked this q2 k.
Proof.
  unfold walked. split.
  - intros (c0 & c' & [H|H]%elem_of_app & ?); [left | right]; eauto.
  - intros [(c0 & c' & H & ?) | (c0 & c' & H & ?)];
      exists c0, c'; (split; [apply elem_of_app; auto | done]).
Qed.

Lemma walk_indirect fuel :
  forall queue keys errs,
    let r := PQueue.onIdle conc (walk preload indirectOnCid) fuel queue
               (this, keys) errs in
    PQueue.idle r = true ->
    fst (PQueue.final r) = this
    /\ (NoDup keys -> NoDup (snd (PQueue.final r)))
    /\ forall k, k ∈ snd (PQueue.final r) <-> k ∈ keys \/ walked this queue k.
Proof.
  induction fuel as [|fuel IH]; intros queue keys errs r Hidle; subst r.
  - destruct queue; [|discriminate]. simpl.
    split; [done|]. split; [done|]. intros k. split; [by left|].
    intros [H | (c0 & c' & H%elem_of_nil & _)]; done.
  - destruct queue as [|c rest].
    { simpl. split; [done|]. split; [done|]. intros k. split; [by left|].
      intros [H | (c0 & c' & H%elem_of_nil & _)]; done. }
    rewrite onIdle_cons in Hidle |- *.
    destruct (dag this !! cid_str c) as [n|] eqn:Hc.
    + rewrite (walk_fetched _ _ _ _ n) in Hidle |- * by done.
      simpl in Hidle |- *.
      destruct (negb (Set_has (recursivePins this) (cidToString c))) eqn:Hrec;
        simpl in Hidle |- *;
        destruct (IH _ _ _ Hidle) as (Hthis & Hnodup & Hkeys);
        (split; [exact Hthis|]);
        (split; [intros Hk; apply Hnodup; try apply Set_add_NoDup; exact Hk|]);
        intros k; rewrite Hkeys, walked_app.
      * apply negb_true_iff, Set_has_false in Hrec.
        rewrite Set_add_elem. split.
        -- intros [[Hk | ->] | [Hw | Hw]].
           ++ by left.
           ++ right. exists c, c. split; [apply list_elem_of_here|].
              split; [constructor|]. rewrite Hc. eauto.
           ++ right. destruct Hw as (c0 & c' & Hin & ?).
              exists c0, c'. split; [by apply list_elem_of_further | done].
           ++ right. destruct Hw as (c0 & c' & Hin & Hreach & ?).
              exists c, c'. split; [apply list_elem_of_here|].
              split; [|done]. by apply (fetches_link _ c n c0 c').
        -- intros [Hk | (c0 & c' & [-> | Hin]%elem_of_cons & Hreach & Hsome & -> & Hnot)].
           ++ by left; left.
           ++ destruct Hreach as [c | c n' child c' Hc' Hchild Hreach].
              ** by left; right.
              ** rewrite Hc in Hc'. injection Hc' as <-.
                 right; right. exists child, c'. done.
           ++ right; left. exists c0, c'. done.
      * apply negb_false_iff, Set_has_true in Hrec. split.
        -- intros [Hk | [Hw | Hw]].
           ++ by left.
           ++ right. destruct Hw as (c0 & c' & Hin & ?).
              exists c0, c'. split; [by apply list_elem_of_further | done].
           ++ right. destruct Hw as (c0 & c' & Hin & Hreach & ?).
              exists c, c'. split; [apply list_elem_of_here|].
              split; [|done]. by apply (fetches_link _ c n c0 c').
        -- intros [Hk | (c0 & c' & [-> | Hin]%elem_of_cons & Hreach & Hsome & -> & Hnot)].
           ++ by left.
           ++ destruct Hreach as [c | c n' child c' Hc' Hchild Hreach].
              ** done.
              ** rewrite Hc in Hc'. injection Hc' as <-.
                 right; right. exists child, c'. done.
           ++ right; left. exists c0, c'. done.
    + rewrite walk_failed in Hidle |- * by done.
      simpl in Hidle |- *. rewrite app_nil_r in Hidle |- *.
      destruct (IH _ _ _ Hidle) as (Hthis & Hnodup & Hkeys).
      split; [exact Hthis|]. split; [exact Hnodup|].
      intros k. rewrite Hkeys. split.
      * intros [Hk | (c0 & c' & Hin & ?)]; [by left|].
        right. exists c0, c'. split; [by apply list_elem_of_further | done].
      * intros [Hk | (c0 & c' & [-> | Hin]%elem_of_cons & Hreach & Hsome & ?)].
        -- by left.
        -- destruct Hreach as [c | c n' child c' Hc' Hchild Hreach].
           ++ rewrite Hc in Hsome. by destruct Hsome.
           ++ rewrite Hc in Hc'. discriminate.
        -- right. exists c0, c'. done.
Qed.

End IndirectKeys.

Lemma queueCost_elem d rank c queue :
  c ∈ queue -> walkCost d (rank c) c <= queueCost d rank queue.
Proof.
  unfold queueCost. induction queue as [|a queue IH]; intros Hin.
  - by apply elem_of_nil in Hin.
  - simpl. apply elem_of_cons in Hin as [-> | Hin]; [lia|].
    specialize (IH Hin). lia.
Qed.

Lemma walkRoots_spec this rank preload fuel :
  acyclic (dag this) rank ->
  forall roots keys,
    (forall b, b ∈ roots ->
       walkCost (dag this) (rank (CID_ofBuffer b)) (CID_ofBuffer b) <= fuel) ->
    NoDup keys ->
    exists keys',
      walkRoots fuel preload roots (this, keys) = (this, Fulfilled keys')
      /\ NoDup keys'
      /\ forall k, k ∈ keys' <-> k ∈ keys \/ walked this (map CID_ofBuffer roots) k.
Proof.
  intros Hacyc roots.
  induction roots as [|b roots IH]; intros keys Hfuel Hnodup.
  - exists keys. split; [done|]. split; [done|]. intros k. split; [by left|].
    intros [H | (c0 & c' & H%elem_of_nil & _)]; done.
  - simpl. unfold _walkDag.
    assert (Hidle :
      PQueue.idle
        (PQueue.onIdle WALK_DAG_CONCURRENCY_LIMIT
           (walk (preload || false) indirectOnCid) fuel [CID_ofBuffer b]
           (this, keys) []) = true).
    { apply (walk_idle (dag this) _ _ _ (indirectOnCid_dag (dag this)) rank Hacyc);
        [done|].
      unfold queueCost. simpl.
      pose proof (Hfuel b (list_elem_of_here _ _)). lia. }
    rewrite Hidle.
    destruct (walk_indirect this WALK_DAG_CONCURRENCY_LIMIT (preload || false)
                fuel [CID_ofBuffer b] keys [] Hidle) as (Hthis & Hnd & Hkeys).
    destruct (PQueue.final _) as [this1 keys1]. simpl in Hthis, Hnd, Hkeys.
    subst this1.
    destruct (IH keys1) as (keys' & Hrun & Hnd' & Hkeys').
    { intros b' Hb'. apply Hfuel. by apply list_elem_of_further. }
    { by apply Hnd. }
    exists keys'. split; [exact Hrun|]. split; [exact Hnd'|].
    intros k. rewrite Hkeys', Hkeys.
    change (CID_ofBuffer b :: map CID_ofBuffer roots)
      with ([CID_ofBuffer b] ++ map CID_ofBuffer roots).
    rewrite walked_app. tauto.
Qed.

(** *** The links [walk] follows are the links of the specification *)

Lemma CborValue_nested_ind (P : CborValue -> Prop) :
  (forall s, P (CborAtom s)) ->
  (forall c, P (CborLink c)) ->
  (forall items, Forall P items -> P (CborArray items)) ->
  (forall entries,
     Forall (fun e => P (snd e)) entries -> P (CborMap entries)) ->
  forall v, P v.
Proof.
  intros Hatom Hlink Harr Hmap. fix IH 1. intros [s|c|items|entries].
  - apply Hatom.
  - apply Hlink.
  - apply Harr. induction items as [|x items IHitems]; constructor.
    + apply IH.
    + exact IHitems.
  - apply Hmap. induction entries as [|[k x] entries IHentries]; constructor.
    + apply IH.
    + exact IHentries.
Qed.

Lemma cborLinks_embedded v :
  forall path c, c ∈ map snd (cborLinks path v) <-> Spec.embedded c v.
Proof.
  induction v as [s|c0|items IH|entries IH] using CborValue_nested_ind;
    intros path c.
  - simpl. split; [intros H%elem_of_nil; done | intros H; inversion H].
  - simpl. rewrite list_elem_of_singleton. split.
    + intros ->. constructor.
    + intros H. by inversion H.
  - simpl. generalize 0%nat.
    induction items as [|x items IHitems]; intros i.
    + simpl. split; [intros H%elem_of_nil; done|].
      intros H. inversion H as [|? ? Hin|]; subst.
      by apply elem_of_nil in Hin.
    + inversion IH as [|? ? Hx Hitems]; subst.
      rewrite map_app, elem_of_app, Hx, (IHitems Hitems). split.
      * intros [H | H];
          [exact (Spec.embedded_item c _ x (list_elem_of_here _ _) H)|].
        inversion H as [|? v Hin Hv|]; subst.
        eapply Spec.embedded_item; [right; exact Hin | exact Hv].
      * intros H. inversion H as [|? v Hin Hv|]; subst.
        apply elem_of_cons in Hin as [-> | Hin]; [by left|].
        right. by eapply Spec.embedded_item.
  - simpl.
    induction entries as [|[k x] entries IHentries].
    + simpl. split; [intros H%elem_of_nil; done|].
      intros H. inversion H as [| |? ? ? Hin]; subst.
      by apply elem_of_nil in Hin.
    + inversion IH as [|? ? Hx Hentries]; subst. simpl in Hx.
      rewrite map_app, elem_of_app, Hx, (IHentries Hentries). split.
      * intros [H | H];
          [exact (Spec.embedded_entry c _ k x (list_elem_of_here _ _) H)|].
        inversion H as [| |? k' v Hin Hv]; subst.
        eapply Spec.embedded_entry; [right; exact Hin | exact Hv].
      * intros H. inversion H as [| |? k' v Hin Hv]; subst.
        apply elem_of_cons in Hin as [Heq | Hin];
          [injection Heq as -> ->; by left|].
        right. by eapply Spec.embedded_entry.
Qed.

Lemma map_snd_imap {A B C : Type} (f : nat -> A -> B) (g : A -> C)
    (l : list A) :
  map snd (imap (fun i x => (f i x, g x)) l) = map g l.
Proof.
  revert f. induction l as [|x l IH]; intros f; [done|].
  simpl. f_equal. apply (IH (fun i => f (S i))).
Qed.

Lemma dagCborLinks_linksTo n c :
  c ∈ map snd (dagCborLinks n) <-> Spec.linksTo n c.
Proof.
  destruct n as [n|v|bytes]; simpl.
  - rewrite (map_snd_imap
               (fun i _ => "Links/" +:+ pretty i +:+ "/Hash") Hash).
    rewrite elem_of_map. split.
    + intros (l & -> & Hl). by constructor.
    + intros H. inversion H; subst. eauto.
  - rewrite cborLinks_embedded. split.
    + intros H. by constructor.
    + intros H. by inversion H.
  - split; [intros H%elem_of_nil; done | intros H; inversion H].
Qed.

Lemma walkLinks_linksTo c n child :
  child ∈ walkLinks c n -> Spec.linksTo n child.
Proof.
  unfold walkLinks. destruct (CID_codec c).
  - destruct n as [n|v|bytes]; try (intros H%elem_of_nil; done).
    intros (l & -> & Hl)%elem_of_map. by constructor.
  - apply dagCborLinks_linksTo.
  - intros H%elem_of_nil; done.
  - intros H%elem_of_nil; done.
Qed.

Lemma linksTo_walkLinks c n child :
  CID_codec c = nodeCodec n -> Spec.linksTo n child -> child ∈ walkLinks c n.
Proof.
  unfold walkLinks. intros ->. destruct n as [n|v|bytes]; simpl.
  - intros H. inversion H; subst. apply elem_of_map. eauto.
  - apply dagCborLinks_linksTo.
  - intros H. inversion H.
Qed.

Lemma isDag_acyclic d rank : isDag d rank -> acyclic d rank.
Proof.
  intros Hdag c n child Hc Hchild.
  eapply Hdag; [exact Hc|]. by eapply walkLinks_linksTo.
Qed.

Lemma fetches_reachable d c c' : fetches d c c' -> Spec.reachable d c c'.
Proof.
  induction 1 as [c|c n child c' Hc Hchild _ IH]; [constructor|].
  eapply Spec.reachable_link;
    [exact Hc | by eapply walkLinks_linksTo | exact IH].
Qed.

Lemma reachable_fetches d c c' :
  decoded_by_codec d -> Spec.reachable d c c' -> fetches d c c'.
Proof.
  intros Hcodec. induction 1 as [c|c n child c' Hc Hchild _ IH]; [constructor|].
  eapply fetches_link; [exact Hc | | exact IH].
  apply linksTo_walkLinks; [by apply Hcodec | exact Hchild].
Qed.

(** C4: over a DAG whose blocks are decoded with the codec of their CID,
    [getIndirectKeys] ends and returns, each once, exactly the CID strings
    that are not in [recursivePins], whose block the DAG service holds, and
    that are reachable from some recursive root through the [Links] of
    dag-pb nodes and the links embedded in dag-cbor nodes; no member of
    [recursivePins] is ever among them.  When the DAG service holds the
    block of every CID reachable from a recursive root, the result is
    exactly the reachable CIDs outside [recursivePins]. *)
Theorem getIndirectKeys_exact (this : PinManager) (rank : CID -> nat)
    (preload : bool) :
  isDag (dag this) rank ->
  decoded_by_codec (dag this) ->
  exists fuel0, forall fuel, fuel0 <= fuel ->
    exists keys,
      getIndirectKeys fuel preload this = (this, Fulfilled keys)
      /\ NoDup keys
      /\ (forall k,
            k ∈ keys <->
            (k ∉ recursivePins this)
            /\ is_Some (dag this !! k)
            /\ exists root,
                 root ∈ recursivePins this
                 /\ Spec.reachable (dag this) (CID_ofString root)
                      (CID_ofString k))
      /\ (forall k, k ∈ keys -> k ∉ recursivePins this)
      /\ ((forall root c,
             root ∈ recursivePins this ->
             Spec.reachable (dag this) (CID_ofString root) c ->
             is_Some (dag this !! cid_str c)) ->
          forall k,
            k ∈ keys <->
            (k ∉ recursivePins this)
            /\ exists root,
                 root ∈ recursivePins this
                 /\ Spec.reachable (dag this) (CID_ofString root)
                      (CID_ofString k)).
Proof.
  intros Hdag Hcodec. pose proof (isDag_acyclic _ _ Hdag) as Hacyc.
  exists (queueCost (dag this) rank (map CID_ofBuffer (recursiveKeys this))).
  intros fuel Hfuel.
  destruct (walkRoots_spec this rank preload fuel Hacyc (recursiveKeys this) [])
    as (keys & Hrun & Hnd & Hkeys).
  { intros b Hb. etrans; [|exact Hfuel].
    apply queueCost_elem, elem_of_map. eauto. }
  { constructor. }
  assert (Hchar : forall k,
            k ∈ keys <->
            (k ∉ recursivePins this)
            /\ is_Some (dag this !! k)
            /\ exists root,
                 root ∈ recursivePins this
                 /\ Spec.reachable (dag this) (CID_ofString root)
                      (CID_ofString k)).
  { intros k. rewrite Hkeys. unfold walked, recursiveKeys. split.
    - intros [H%elem_of_nil | (c0 & c' & Hin & Hreach & Hsome & -> & Hnot)];
        [done|].
      split; [exact Hnot|]. split; [exact Hsome|].
      apply elem_of_map in Hin as (b & -> & Hb).
      apply elem_of_map in Hb as (root & -> & Hroot).
      exists root. split; [exact Hroot|].
      apply fetches_reachable. by destruct c'.
    - intros (Hnot & Hsome & root & Hroot & Hreach). right.
      exists (CID_ofString root), (CID_ofString k).
      split.
      { apply elem_of_map. exists (CID_buffer (CID_ofString root)).
        split; [done|]. apply elem_of_map. eauto. }
      split; [by apply reachable_fetches|]. done. }
  exists keys. split; [exact Hrun|]. split; [exact Hnd|].
  split; [exact Hchar|].
  split; [intros k Hk; by apply Hchar in Hk as [? _]|].
  intros Hall k. rewrite Hchar. split.
  - intros (Hnot & _ & Hroot). done.
  - intros (Hnot & root & Hroot & Hreach).
    split; [exact Hnot|]. split; [|eauto].
    apply (Hall root (CID_ofString k) Hroot Hreach).
Qed.

(** The blocks of the scenario. *)
Lemma scenarioDag_lookup s n :
  scenarioDag !! s = Some n ->
  (s = "QmA" /\ n = PBNode (mkDAGNode "a" [linkTo cidB; linkTo cidC]))
  \/ (s = "QmB" /\ n = PBNode (mkDAGNode "b" [linkTo cidD]))
  \/ (s = "QmC" /\ n = PBNode (mkDAGNode "c" []))
  \/ (s = "QmD" /\ n = PBNode (mkDAGNode "d" [])).
Proof.
  unfold scenarioDag.
  rewrite !lookup_insert_Some, lookup_empty.
  intros [[<- <-] | [_ [[<- <-] | [_ [[<- <-] | [_ [[<- <-] | [_ H]]]]]]]];
    auto 10. discriminate.
Qed.

Lemma scenarioDag_links c n child :
  scenarioDag !! cid_str c = Some n ->
  child ∈ walkLinks c n ->
  (c = cidA /\ (child = cidB \/ child = cidC)) \/ (c = cidB /\ child = cidD).
Proof.
  destruct c as [s]. simpl. intros Hc Hchild.
  apply scenarioDag_lookup in Hc as [[-> ->] | [[-> ->] | [[-> ->] | [-> ->]]]];
    vm_compute in Hchild.
  - left. split; [done|].
    apply elem_of_cons in Hchild as [-> | Hchild]; [by left|].
    apply elem_of_cons in Hchild as [-> | Hchild]; [by right|].
    by apply elem_of_nil in Hchild.
  - right. split; [done|].
    apply elem_of_cons in Hchild as [-> | Hchild]; [done|].
    by apply elem_of_nil in Hchild.
  - by apply elem_of_nil in Hchild.
  - by apply elem_of_nil in Hchild.
Qed.

Lemma scenario_acyclic : acyclic scenarioDag scenarioRank.
Proof.
  intros c n child Hc Hchild.
  destruct (scenarioDag_links c n child Hc Hchild)
    as [[-> [-> | ->]] | [-> ->]]; vm_compute; lia.
Qed.

(** Embedded dag-cbor links are followed, with their paths. *)
Example getIndirectKeys_cbor :
  dagCborLinks
    (CborNode (CborMap [("title", CborAtom "x");
                        ("first", CborLink cidC);
                        ("rest", CborArray [CborLink cidB; CborAtom "y"])]))
  = [("first", cidC); ("rest/0", cidB)]
  /\ snd (getIndirectKeys 5 false cborScenario)
     = Fulfilled ["QmC"; "QmB"; "QmD"].
Proof. by vm_compute. Qed.

Lemma scenarioDag_decoded : decoded_by_codec scenarioDag.
Proof.
  intros [s] n H. simpl in H.
  by apply scenarioDag_lookup in H
    as [[-> ->] | [[-> ->] | [[-> ->] | [-> ->]]]].
Qed.

Lemma scenario_isDag : isDag scenarioDag scenarioRank.
Proof.
  intros c n child Hc Hchild. apply (scenario_acyclic c n child Hc).
  apply linksTo_walkLinks; [by apply scenarioDag_decoded | exact Hchild].
Qed.

Lemma cborScenario_decoded : decoded_by_codec (dag cborScenario).
Proof.
  intros [s] n H. simpl in H.
  apply lookup_insert_Some in H as [[<- <-] | [_ H]]; [done|].
  by apply (scenarioDag_decoded (mkCID s)).
Qed.

Lemma cborScenario_isDag : isDag (dag cborScenario) cborRank.
Proof.
  intros [s] n child Hc Hchild. simpl in Hc.
  apply lookup_insert_Some in Hc as [[<- <-] | [Hs Hc]].
  - apply dagCborLinks_linksTo in Hchild. vm_compute in Hchild.
    apply elem_of_cons in Hchild as [-> | Hchild]; [vm_compute; lia|].
    apply elem_of_cons in Hchild as [-> | Hchild]; [vm_compute; lia|].
    by apply elem_of_nil in Hchild.
  - pose proof (scenario_isDag (mkCID s) n child Hc Hchild) as Hlt.
    apply linksTo_walkLinks with (c := mkCID s) in Hchild;
      [|by apply scenarioDag_decoded].
    destruct (scenarioDag_links (mkCID s) n child Hc Hchild)
      as [[Heq [-> | ->]] | [Heq ->]]; injection Heq as ->;
      vm_compute; lia.
Qed.

Lemma scenarioWithoutB_decoded : decoded_by_codec (dag scenarioWithoutB).
Proof.
  intros c n H. simpl in H. apply lookup_delete_Some in H as [_ H].
  by apply scenarioDag_decoded.
Qed.

Lemma scenarioWithoutB_isDag : isDag (dag scenarioWithoutB) scenarioRank.
Proof.
  intros c n child Hc Hchild. simpl in Hc.
  apply lookup_delete_Some in Hc as [_ Hc].
  by apply (scenario_isDag c n child).
Qed.

(** The scenario of the specification: [getIndirectKeys] is [{B, C, D}];
    and a dag-cbor root whose links sit in a map and in an array. *)
Lemma getIndirectKeys_exact_witness :
  getIndirectKeys 4 false scenario
  = (scenario, Fulfilled ["QmB"; "QmC"; "QmD"])
  /\ getIndirectKeys 5 false cborScenario
     = (cborScenario, Fulfilled ["QmC"; "QmB"; "QmD"])
  /\ (exists fuel0, forall fuel, fuel0 <= fuel ->
        exists keys,
          getIndirectKeys fuel false scenario = (scenario, Fulfilled keys)
          /\ NoDup keys
          /\ (forall k,
                k ∈ keys <->
                (k ∉ recursivePins scenario)
                /\ is_Some (dag scenario !! k)
                /\ exists root,
                     root ∈ recursivePins scenario
                     /\ Spec.reachable (dag scenario) (CID_ofString root)
                          (CID_ofString k))
          /\ (forall k, k ∈ keys -> k ∉ recursivePins scenario)
          /\ ((forall root c,
                 root ∈ recursivePins scenario ->
                 Spec.reachable (dag scenario) (CID_ofString root) c ->
                 is_Some (dag scenario !! cid_str c)) ->
              forall k,
                k ∈ keys <->
                (k ∉ recursivePins scenario)
                /\ exists root,
                     root ∈ recursivePins scenario
                     /\ Spec.reachable (dag scenario) (CID_ofString root)
                          (CID_ofString k)))
  /\ (exists fuel0, forall fuel, fuel0 <= fuel ->
        exists keys,
          getIndirectKeys fuel true cborScenario
          = (cborScenario, Fulfilled keys)
          /\ NoDup keys
          /\ (forall k,
                k ∈ keys <->
                (k ∉ recursivePins cborScenario)
                /\ is_Some (dag cborScenario !! k)
                /\ exists root,
                     root ∈ recursivePins cborScenario
                     /\ Spec.reachable (dag cborScenario) (CID_ofString root)
                          (CID_ofString k))
          /\ (forall k, k ∈ keys -> k ∉ recursivePins cborScenario)
          /\ ((forall root c,
                 root ∈ recursivePins cborScenario ->
                 Spec.reachable (dag cborScenario) (CID_ofString root) c ->
                 is_Some (dag cborScenario !! cid_str c)) ->
              forall k,
                k ∈ keys <->
                (k ∉ recursivePins cborScenario)
                /\ exists root,
                     root ∈ recursivePins cborScenario
                     /\ Spec.reachable (dag cborScenario) (CID_ofString root)
                          (CID_ofString k))).
Proof.
  split; [by vm_compute|]. split; [by vm_compute|]. split.
  - exact (getIndirectKeys_exact scenario scenarioRank false
             scenario_isDag scenarioDag_decoded).
  - exact (getIndirectKeys_exact cborScenario cborRank true
             cborScenario_isDag cborScenario_decoded).
Defined.

(** Once the queue is idle, more fuel changes nothing. *)
Lemma onIdle_more_fuel {S T : Type} (concurrency : nat)
    (runTask : T -> S -> PQueue.TaskEnd S T) (fuel : nat) :
  forall queue s errs,
    PQueue.idle (PQueue.onIdle concurrency runTask fuel queue s errs) = true ->
    forall extra,
      PQueue.onIdle concurrency runTask (fuel + extra) queue s errs
      = PQueue.onIdle concurrency runTask fuel queue s errs.
Proof.
  induction fuel as [|fuel IH]; intros [|t queue] s errs Hidle extra;
    simpl in *; try done.
  - by destruct extra.
  - by apply IH.
Qed.

Lemma walkRoots_more_fuel fuel preload roots :
  forall w s keys,
    walkRoots fuel preload roots w = (s, Fulfilled keys) ->
    forall extra,
      walkRoots (fuel + extra) preload roots w = (s, Fulfilled keys).
Proof.
  induction roots as [|b roots IH]; intros w s keys Hrun extra; [done|].
  simpl in *. unfold _walkDag in *.
  destruct (PQueue.idle
              (PQueue.onIdle WALK_DAG_CONCURRENCY_LIMIT
                 (walk (preload || false) indirectOnCid) fuel
                 [CID_ofBuffer b] w [])) eqn:Hidle; [|done].
  rewrite (onIdle_more_fuel _ _ _ _ _ _ Hidle), Hidle. by apply IH.
Qed.

(** The block of [B] is gone: [B] is a dag-pb link of the recursive root
    [A], hence reachable from it, and is no recursive pin, yet it is not in
    the result, whatever the fuel. *)
Lemma getIndirectKeys_missing_block_counterexample :
  isDag (dag scenarioWithoutB) scenarioRank
  /\ decoded_by_codec (dag scenarioWithoutB)
  /\ "QmA" ∈ recursivePins scenarioWithoutB
  /\ dag scenarioWithoutB !! "QmA"
     = Some (PBNode (mkDAGNode "a" [linkTo cidB; linkTo cidC]))
  /\ Spec.reachable (dag scenarioWithoutB) (CID_ofString "QmA")
       (CID_ofString "QmB")
  /\ ("QmB" ∉ recursivePins scenarioWithoutB)
  /\ getIndirectKeys 4 false scenarioWithoutB
     = (scenarioWithoutB, Fulfilled ["QmC"])
  /\ ~ (exists fuel keys,
          getIndirectKeys fuel false scenarioWithoutB
          = (scenarioWithoutB, Fulfilled keys)
          /\ forall k,
               k ∈ keys <->
               (k ∉ recursivePins scenarioWithoutB)
               /\ exists root,
                    root ∈ recursivePins scenarioWithoutB
                    /\ Spec.reachable (dag scenarioWithoutB) (CID_ofString root)
                         (CID_ofString k)).
Proof.
  assert (HA : dag scenarioWithoutB !! "QmA"
               = Some (PBNode (mkDAGNode "a" [linkTo cidB; linkTo cidC])))
    by (by vm_compute).
  assert (Hreach : Spec.reachable (dag scenarioWithoutB) (CID_ofString "QmA")
                     (CID_ofString "QmB")).
  { eapply Spec.reachable_link; [exact HA | | apply Spec.reachable_here].
    apply (Spec.linksTo_pb (mkDAGNode "a" [linkTo cidB; linkTo cidC])
             (linkTo cidB)).
    apply list_elem_of_here. }
  assert (Hroot : "QmA" ∈ recursivePins scenarioWithoutB)
    by apply list_elem_of_here.
  assert (Hnot : "QmB" ∉ recursivePins scenarioWithoutB).
  { simpl. rewrite list_elem_of_singleton. discriminate. }
  split; [exact scenarioWithoutB_isDag|].
  split; [exact scenarioWithoutB_decoded|].
  split; [exact Hroot|]. split; [exact HA|]. split; [exact Hreach|].
  split; [exact Hnot|]. split; [by vm_compute|].
  intros (fuel & keys & Hrun & Hchar).
  assert (HB : "QmB" ∈ keys) by (apply Hchar; eauto).
  assert (Hsnd : snd (getIndirectKeys fuel false scenarioWithoutB)
                 = Fulfilled keys) by (by rewrite Hrun).
  destruct fuel as [|[|[|fuel]]]; [by vm_compute in Hsnd..|].
  assert (H3 : getIndirectKeys 3 false scenarioWithoutB
               = (scenarioWithoutB, Fulfilled ["QmC"])) by (by vm_compute).
  unfold getIndirectKeys in *.
  change (S (S (S fuel))) with (3 + fuel) in Hsnd.
  rewrite (walkRoots_more_fuel _ _ _ _ _ _ H3) in Hsnd.
  injection Hsnd as <-.
  apply list_elem_of_singleton in HB. discriminate.
Qed.

(** ** Failed fetches during a walk *)

(** C7, as the code has it: in a walk started by [_walkDag] over a DAG, a
    failed [dag.get] does not fail the walk.  The promise of the walk is
    fulfilled once the queue is idle, and the error of every fetch that
    failed is left on the promise [queue.add] returned for that task, which
    nothing awaits. *)
Theorem walkDag_fetch_failure_unhandled {L : Type} (this : PinManager)
    (rank : CID -> nat) (cid : CID) (preload : bool)
    (onCid : CID -> PinManager * L -> PinManager * L) (l : L) :
  acyclic (dag this) rank ->
  (forall c w, dag (fst w) = dag this -> dag (fst (onCid c w)) = dag this) ->
  exists fuel0, forall fuel, fuel0 <= fuel ->
    walkPromise (_walkDag fuel cid preload onCid (this, l)) = Fulfilled tt
    /\ forall c e,
         fetches (dag this) cid c ->
         dag_get (dag this) c preload = Err e ->
         e ∈ PQueue.unhandled (_walkDag fuel cid preload onCid (this, l)).
Proof.
  intros Hacyc HonCid.
  exists (queueCost (dag this) rank [cid]). intros fuel Hfuel.
  assert (Hidle :
    PQueue.idle (_walkDag fuel cid preload onCid (this, l)) = true).
  { by apply (walk_idle (dag this) _ _ _ HonCid rank Hacyc). }
  split.
  - unfold walkPromise. by rewrite Hidle.
  - intros c e Hreach He.
    apply (walk_unhandled (dag this) _ _ _ HonCid fuel [cid] (this, l) []
             eq_refl Hidle cid c e); [apply list_elem_of_here | done | done].
Qed.

Lemma scenarioWithoutB_acyclic : acyclic (dag scenarioWithoutB) scenarioRank.
Proof.
  intros c n child Hc Hchild. simpl in Hc.
  apply lookup_delete_Some in Hc as [_ Hc].
  by apply (scenario_acyclic c n child).
Qed.

(** The block of [B] is gone; the walk from [A] still ends well, with the
    error of [B] among the rejections nothing awaits. *)
Lemma walkDag_fetch_failure_unhandled_witness :
  fetches (dag scenarioWithoutB) cidA cidB
  /\ dag_get (dag scenarioWithoutB) cidB false = Err (notFoundError "QmB")
  /\ exists fuel0, forall fuel, fuel0 <= fuel ->
       walkPromise (_walkDag fuel cidA false indirectOnCid
                      (scenarioWithoutB, []))
       = Fulfilled tt
       /\ forall c e,
            fetches (dag scenarioWithoutB) cidA c ->
            dag_get (dag scenarioWithoutB) c false = Err e ->
            e ∈ PQueue.unhandled
                  (_walkDag fuel cidA false indirectOnCid
                     (scenarioWithoutB, [])).
Proof.
  split; [|split; [by vm_compute|]].
  - apply (fetches_link _ cidA
             (PBNode (mkDAGNode "a" [linkTo cidB; linkTo cidC])) cidB cidB).
    + by vm_compute.
    + apply (bool_decide_unpack _). by vm_compute.
    + constructor.
  - exact (walkDag_fetch_failure_unhandled scenarioWithoutB scenarioRank
             cidA false indirectOnCid [] scenarioWithoutB_acyclic
             (indirectOnCid_dag (dag scenarioWithoutB))).
Defined.

(** C7, as the specification has it, fails: with the block of [B] missing,
    the walk from [A] tries to fetch [B], the fetch fails, and the walk is
    fulfilled all the same, with [B] and [D] silently left out. *)
Lemma walkDag_fail_fast_counterexample :
  fetches (dag scenarioWithoutB) cidA cidB
  /\ dag_get (dag scenarioWithoutB) cidB false = Err (notFoundError "QmB")
  /\ walkPromise (_walkDag 4 cidA false indirectOnCid (scenarioWithoutB, []))
     = Fulfilled tt
  /\ walkPromise (_walkDag 4 cidA false indirectOnCid (scenarioWithoutB, []))
     <> Rejected (notFoundError "QmB")
  /\ PQueue.unhandled
       (_walkDag 4 cidA false indirectOnCid (scenarioWithoutB, []))
     = [notFoundError "QmB"]
  /\ getIndirectKeys 4 false scenarioWithoutB
     = (scenarioWithoutB, Fulfilled ["QmC"])
  /\ ~ (forall (this : PinManager) (cid c : CID) (e : Error) (fuel : nat),
          fetches (dag this) cid c ->
          dag_get (dag this) c false = Err e ->
          PQueue.idle (_walkDag fuel cid false indirectOnCid (this, []))
          = true ->
          walkPromise (_walkDag fuel cid false indirectOnCid (this, []))
          = Rejected e).
Proof.
  assert (Hreach : fetches (dag scenarioWithoutB) cidA cidB).
  { apply (fetches_link _ cidA
             (PBNode (mkDAGNode "a" [linkTo cidB; linkTo cidC])) cidB cidB).
    - by vm_compute.
    - apply (bool_decide_unpack _). by vm_compute.
    - constructor. }
  split; [exact Hreach|].
  split; [by vm_compute|]. split; [by vm_compute|].
  split; [by vm_compute|]. split; [by vm_compute|]. split; [by vm_compute|].
  intros Hclaim.
  specialize (Hclaim scenarioWithoutB cidA cidB (notFoundError "QmB") 4
                Hreach eq_refl eq_refl).
  vm_compute in Hclaim. discriminate.
Qed.

(** ** [flushPins] and [load] *)

Lemma cidOf_inj n m : cid_str (cidOf n) = cid_str (cidOf m) -> n = m.
Proof.
  unfold cidOf, multihash. simpl. intros H. injection H as H.
  apply pretty_positive_inj in H. by apply (inj encode) in H.
Qed.

Lemma dag_put_subseteq d n :
  content_addressed d -> d ⊆ fst (dag_put d n).
Proof.
  intros Hca. simpl. apply map_subseteq_spec. intros i x Hi.
  destruct (decide (cid_str (cidOf n) = i)) as [<- | Hne].
  - rewrite (Hca n x Hi). apply lookup_insert_eq.
  - by rewrite lookup_insert_ne.
Qed.

Lemma dag_put_content_addressed d n :
  content_addressed d -> content_addressed (fst (dag_put d n)).
Proof.
  intros Hca m x. simpl. rewrite lookup_insert_Some.
  intros [[Heq <-] | [_ Hx]].
  - by rewrite (cidOf_inj n m Heq).
  - by apply Hca.
Qed.

Lemma dag_get_put d n preload :
  dag_get (fst (dag_put d n)) (snd (dag_put d n)) preload = Ok (PBNode n).
Proof. unfold dag_get. simpl. by rewrite lookup_insert_eq. Qed.

(** The flat codec keeps the round trip the manager relies on. *)
Lemma flatPinSet_roundtrip : PinSetRoundTrip flatPinSet.
Proof.
  split.
  - intros d keys Hca. eexists _, _. split; [reflexivity|].
    split; [by apply dag_put_subseteq | by apply dag_put_content_addressed].
  - intros d keys d' r d'' rootNode name Hstore Hsub [l [Hl Hname]] Hhash.
    simpl in Hstore. unfold flat_storeSet in Hstore. simpl in Hstore.
    injection Hstore as <- <-. simpl in Hhash.
    set (n0 := mkDAGNode ""
                 (map (fun k => mkDAGLink "" 0 (CID_ofBuffer k)) keys)) in *.
    assert (Hget : d'' !! cid_str (cidOf n0) = Some (PBNode n0)).
    { rewrite map_subseteq_spec in Hsub. apply Hsub, lookup_insert_eq. }
    simpl. unfold flat_loadSet.
    destruct (find _ (Links rootNode)) as [link|] eqn:Hfind.
    + apply find_some in Hfind as [Hin Hn].
      apply bool_decide_eq_true in Hn. apply list_elem_of_In in Hin.
      rewrite (Hhash link Hin Hn). unfold dag_get. rewrite Hget.
      eexists. split; [reflexivity|]. intros k. simpl.
      rewrite !map_map. simpl. rewrite elem_of_map. split.
      * intros [b [-> Hb]]. by destruct b.
      * intros Hk. exists k. split; [by destruct k | done].
    + exfalso. apply list_elem_of_In in Hl.
      apply (find_none _ _ Hfind) in Hl. simpl in Hl.
      by apply bool_decide_eq_false in Hl.
Qed.

(** What [flushPins] leaves when both sets are stored. *)
Lemma flushPins_stored pinset this d1 r1 d2 r2 :
  storeSet pinset (dag this) (directKeys this) = Ok (d1, r1) ->
  storeSet pinset d1 (recursiveKeys this) = Ok (d2, r2) ->
  let dLink := mkDAGLink "direct" (DAGNode_size (node r1)) (cid r1) in
  let rLink := mkDAGLink "recursive" (DAGNode_size (node r2)) (cid r2) in
  let rootNode := mkDAGNode "" [dLink; rLink] in
  let d3 := fst (dag_put d2 (mkDAGNode "" [])) in
  let d4 := fst (dag_put d3 rootNode) in
  flushPins pinset this
  = (mkPinManager
       (datastore_put (repo this) PIN_DS_KEY (CID_buffer (cidOf rootNode)))
       d4 (directPins this) (recursivePins this),
     Fulfilled tt).
Proof.
  intros H1 H2. unfold flushPins, storeSetOf, dagPut. unfold_async.
  simpl. rewrite H1. simpl. change (recursiveKeys (set_dag d1 this))
    with (recursiveKeys this). rewrite H2. reflexivity.
Qed.

(** C5: with a codec that round-trips, and blocks stored under the CID of
    their content, [flushPins] succeeds, and a fresh manager on the same
    datastore and DAG service that calls [load] ends with [directKeys] and
    [recursiveKeys] equal, as sets, to those of the manager that flushed. *)
Theorem flushPins_load_roundtrip (pinset : PinSet) (this : PinManager) :
  PinSetRoundTrip pinset ->
  content_addressed (dag this) ->
  exists flushed loaded,
    flushPins pinset this = (flushed, Fulfilled tt)
    /\ directPins flushed = directPins this
    /\ recursivePins flushed = recursivePins this
    /\ load pinset (PinManager_new (repo flushed) (dag flushed))
       = (loaded, Fulfilled tt)
    /\ (forall k, k ∈ directKeys loaded <-> k ∈ directKeys this)
    /\ (forall k, k ∈ recursiveKeys loaded <-> k ∈ recursiveKeys this).
Proof.
  intros [Hadds Hround] Hca.
  destruct (Hadds (dag this) (directKeys this) Hca)
    as (d1 & r1 & Hs1 & Hsub1 & Hca1).
  destruct (Hadds d1 (recursiveKeys this) Hca1)
    as (d2 & r2 & Hs2 & Hsub2 & Hca2).
  pose proof (flushPins_stored pinset this d1 r1 d2 r2 Hs1 Hs2) as Hflush.
  cbv zeta in Hflush.
  set (dLink := mkDAGLink "direct" (DAGNode_size (node r1)) (cid r1)) in *.
  set (rLink := mkDAGLink "recursive" (DAGNode_size (node r2)) (cid r2)) in *.
  set (rootNode := mkDAGNode "" [dLink; rLink]) in *.
  set (d3 := fst (dag_put d2 (mkDAGNode "" []))) in *.
  set (d4 := fst (dag_put d3 rootNode)) in *.
  assert (Hsub3 : d2 ⊆ d3) by (by apply dag_put_subseteq).
  assert (Hca3 : content_addressed d3) by (by apply dag_put_content_addressed).
  assert (Hsub4 : d3 ⊆ d4) by (by apply dag_put_subseteq).
  assert (Hd2 : d2 ⊆ d4) by (by etrans).
  assert (Hd1 : d1 ⊆ d4) by (by etrans).
  destruct (Hround _ _ _ _ d4 rootNode "recursive" Hs2 Hd2)
    as (rKeys & HrLoad & HrKeys).
  { exists rLink. split; [|done]. apply elem_of_cons. right.
    apply list_elem_of_here. }
  { intros l [-> | [-> | H%elem_of_nil]%elem_of_cons]%elem_of_cons; done. }
  destruct (Hround _ _ _ _ d4 rootNode "direct" Hs1 Hd1)
    as (dKeys & HdLoad & HdKeys).
  { exists dLink. split; [apply list_elem_of_here | done]. }
  { intros l [-> | [-> | H%elem_of_nil]%elem_of_cons]%elem_of_cons; done. }
  eexists _, _. split; [exact Hflush|]. simpl.
  split; [done|]. split; [done|]. split.
  - unfold load, loadSetOf, datastore_has, datastore_get, PinManager_new.
    unfold_async. simpl. rewrite lookup_insert_eq.
    rewrite bool_decide_eq_true_2 by eauto. simpl.
    rewrite lookup_insert_eq. simpl.
    change (CID_ofBuffer (CID_buffer (cidOf rootNode)))
      with (snd (dag_put d3 rootNode)).
    unfold d4. rewrite dag_get_put. fold d4. simpl.
    change (PinTypes recursive) with "recursive".
    change (PinTypes direct) with "direct".
    rewrite HrLoad. simpl. rewrite HdLoad. simpl. reflexivity.
  - split; intros k.
    + rewrite <- HdKeys. unfold directKeys. simpl. rewrite !elem_of_map. split.
      * intros (s & -> & (c & -> & Hc)%Set_new_elem%elem_of_map).
        exists c. by destruct c.
      * intros (c & -> & Hc). exists (cidToString c).
        split; [by destruct c|]. apply Set_new_elem, elem_of_map. eauto.
    + rewrite <- HrKeys. unfold recursiveKeys. simpl. rewrite !elem_of_map.
      split.
      * intros (s & -> & (c & -> & Hc)%Set_new_elem%elem_of_map).
        exists c. by destruct c.
      * intros (c & -> & Hc). exists (cidToString c).
        split; [by destruct c|]. apply Set_new_elem, elem_of_map. eauto.
Qed.

(** Two direct pins and a recursive one, flushed into an empty repo and
    loaded again. *)
Lemma flushPins_load_roundtrip_witness :
  exists flushed loaded,
    flushPins flatPinSet unflushed = (flushed, Fulfilled tt)
    /\ directPins flushed = directPins unflushed
    /\ recursivePins flushed = recursivePins unflushed
    /\ load flatPinSet (PinManager_new (repo flushed) (dag flushed))
       = (loaded, Fulfilled tt)
    /\ (forall k, k ∈ directKeys loaded <-> k ∈ directKeys unflushed)
    /\ (forall k, k ∈ recursiveKeys loaded <-> k ∈ recursiveKeys unflushed).
Proof.
  apply (flushPins_load_roundtrip flatPinSet unflushed flatPinSet_roundtrip).
  intros n m H. simpl in H. by rewrite lookup_empty in H.
Defined.

(** ** The descendant scan of [isPinnedWithType] *)

(** The scan never looks at the CID it was asked about: two CIDs that are in
    neither set get the same [pinned] and the same [reason]. *)
Lemma isPinnedWithType_scan_same pinset this c1 c2 info1 info2 :
  cidToString c1 ∉ recursivePins this -> cidToString c1 ∉ directPins this ->
  cidToString c2 ∉ recursivePins this -> cidToString c2 ∉ directPins this ->
  isPinnedWithType pinset c1 all this = (this, Fulfilled info1) ->
  isPinnedWithType pinset c2 all this = (this, Fulfilled info2) ->
  pinned info1 = pinned info2 /\ reason info1 = reason info2.
Proof.
  intros Hr1%Set_has_false Hd1%Set_has_false Hr2%Set_has_false
    Hd2%Set_has_false.
  unfold isPinnedWithType. simpl. rewrite Hr1, Hd1, Hr2, Hd2. simpl.
  destruct (PQueue.idle _); [|discriminate].
  intros H1 H2. injection H1 as <-. injection H2 as <-. done.
Qed.

(** C1 on the code: in the scenario [recursivePins = {A}], [A -> [B, C]],
    [B -> [D]], the query for [D] with type ['all'] is answered
    [{ pinned: false }].  The scan asks [hasDescendant] whether the root [A]
    lies below [A], never whether [D] does: the answer for [D] is whatever
    the codec says about [(A, A)], although [D] is a descendant of [A]. *)
Theorem isPinnedWithType_scan_asks_root_about_itself :
  isPinnedWithType flatPinSet cidD all scenario
  = (scenario, Fulfilled (mkPinInfo "QmD" false None))
  /\ (forall pinset : PinSet,
        isPinnedWithType pinset cidD all scenario
        = (scenario,
           Fulfilled
             (if hasDescendant pinset scenarioDag (CID_buffer cidA) cidA
              then mkPinInfo "QmD" true (Some (ReasonCID cidA))
              else mkPinInfo "QmD" false None)))
  /\ spec_hasDescendant scenarioDag (CID_buffer cidA) cidD = true
  /\ spec_hasDescendant scenarioDag (CID_buffer cidA) cidA = false.
Proof.
  split; [by vm_compute|]. split; [|by vm_compute].
  intros pinset. unfold isPinnedWithType, scanRecursiveKeys, hasDescendantTask.
  change (Set_has (recursivePins scenario) (cidToString cidD)) with false.
  change (Set_has (directPins scenario) (cidToString cidD)) with false.
  simpl.
  destruct (hasDescendant pinset scenarioDag _ _); reflexivity.
Qed.

(** A queue whose tasks add nothing is idle after one step per task. *)
Lemma onIdle_no_added_idle {S T : Type} conc
    (runTask : T -> S -> PQueue.TaskEnd S T) :
  (forall t s, PQueue.added (runTask t s) = []) ->
  forall fuel queue s errs,
    length queue <= fuel ->
    PQueue.idle (PQueue.onIdle conc runTask fuel queue s errs) = true.
Proof.
  intros Hadd fuel.
  induction fuel as [|fuel IH]; intros queue s errs Hlen.
  - destruct queue; [done | simpl in Hlen; lia].
  - destruct queue as [|t rest]; [done|].
    rewrite onIdle_cons, Hadd, app_nil_r. apply IH.
    simpl in Hlen. destruct (PQueue.cleared _); [|lia].
    rewrite length_take. lia.
Qed.

(** [isPinnedWithType] always settles with an answer and leaves the manager
    alone. *)
Lemma isPinnedWithType_settles pinset c type this :
  exists info, isPinnedWithType pinset c type this = (this, Fulfilled info).
Proof.
  unfold isPinnedWithType.
  destruct (_ && Set_has (recursivePins this) _); [eauto|].
  destruct (bool_decide (type = recursive)); [eauto|].
  destruct (_ && Set_has (directPins this) _); [eauto|].
  destruct (bool_decide (type = direct)); [eauto|].
  unfold scanRecursiveKeys.
  rewrite onIdle_no_added_idle; [eexists; reflexivity | | done].
  intros t s. unfold hasDescendantTask. by destruct (hasDescendant _ _ _ _).
Qed.

(** * Further properties of the pin manager *)

(** ** [getInternalBlocks] *)

(** X1: [getInternalBlocks] only reads: the manager is the same afterwards,
    whether it finds a pin root or not and whether it fails or not.  With no
    pin root in the datastore it resolves to the empty list. *)
Theorem getInternalBlocks_reads_only (getInternalCids : InternalCids)
    (this : PinManager) :
  fst (getInternalBlocks getInternalCids this) = this
  /\ (datastore (repo this) !! PIN_DS_KEY = None ->
      getInternalBlocks getInternalCids this = (this, Fulfilled [])).
Proof.
  unfold getInternalBlocks, datastore_get. unfold_async.
  destruct (datastore (repo this) !! PIN_DS_KEY) as [mh|]; simpl.
  - split; [|discriminate].
    destruct (dag_get (dag this) (CID_ofBuffer mh) false) as [obj|e]; [|done].
    by destruct (getInternalCids (dag this) obj).
  - done.
Qed.

Lemma getInternalBlocks_reads_only_witness :
  getInternalBlocks flat_getInternalCids unflushed = (unflushed, Fulfilled [])
  /\ fst (getInternalBlocks flat_getInternalCids danglingRoot) = danglingRoot.
Proof.
  split.
  - apply (getInternalBlocks_reads_only flat_getInternalCids unflushed).
    reflexivity.
  - apply (getInternalBlocks_reads_only flat_getInternalCids danglingRoot).
Defined.

(** With a pin root in the datastore, [getInternalBlocks] fetches the root
    node, asks the codec for its internal CIDs and appends the CID of the
    root itself; an error of the fetch or of the codec is the error of the
    call. *)
Lemma getInternalBlocks_with_root (getInternalCids : InternalCids)
    (this : PinManager) (mh : Buffer) :
  datastore (repo this) !! PIN_DS_KEY = Some mh ->
  getInternalBlocks getInternalCids this
  = (this,
     match dag_get (dag this) (CID_ofBuffer mh) false with
     | Err e => Rejected e
     | Ok obj =>
         match getInternalCids (dag this) obj with
         | Err e => Rejected e
         | Ok cids => Fulfilled (cids ++ [CID_ofBuffer mh])
         end
     end).
Proof.
  intros Hkey. unfold getInternalBlocks, datastore_get. unfold_async.
  rewrite Hkey. simpl.
  destruct (dag_get (dag this) (CID_ofBuffer mh) false) as [obj|e]; [|done].
  by destruct (getInternalCids (dag this) obj).
Qed.

(** ** [flushPins] *)

(** A flush that is fulfilled stored both sets. *)
Lemma flushPins_fulfilled pinset this flushed :
  flushPins pinset this = (flushed, Fulfilled tt) ->
  exists d1 r1 d2 r2,
    storeSet pinset (dag this) (directKeys this) = Ok (d1, r1)
    /\ storeSet pinset d1 (recursiveKeys this) = Ok (d2, r2).
Proof.
  unfold flushPins, storeSetOf, dagPut. unfold_async. simpl.
  destruct (storeSet pinset (dag this) (directKeys this))
    as [[d1 r1]|e1] eqn:H1; simpl.
  - change (recursiveKeys (set_dag d1 this)) with (recursiveKeys this).
    destruct (storeSet pinset d1 (recursiveKeys this))
      as [[d2 r2]|e2] eqn:H2; simpl; [eauto 10 | discriminate].
  - destruct (storeSet pinset (dag this) (recursiveKeys this)) as [[d2 r2]|e2];
      simpl; discriminate.
Qed.

(** The CIDs of two different nodes differ as strings. *)
Lemma cidOf_ne n m : n <> m -> cid_str (cidOf n) <> cid_str (cidOf m).
Proof. intros Hne Heq. by apply Hne, cidOf_inj. Qed.

(** X3: what a fulfilled [flushPins] leaves behind: the datastore key holds the
    CID of a root node that the DAG service has, the root has exactly the
    links [direct] and [recursive], in this order, to the two nodes
    [storeSet] returned, the empty node the pin-set nodes link to exists,
    and the two pin sets are what they were. *)
Theorem flushPins_layout (pinset : PinSet) (this flushed : PinManager) :
  flushPins pinset this = (flushed, Fulfilled tt) ->
  exists rootNode d1 r1 d2 r2,
    storeSet pinset (dag this) (directKeys this) = Ok (d1, r1)
    /\ storeSet pinset d1 (recursiveKeys this) = Ok (d2, r2)
    /\ Links rootNode
       = [mkDAGLink "direct" (DAGNode_size (node r1)) (cid r1);
          mkDAGLink "recursive" (DAGNode_size (node r2)) (cid r2)]
    /\ datastore (repo flushed) !! PIN_DS_KEY
       = Some (CID_buffer (cidOf rootNode))
    /\ dag_get (dag flushed) (cidOf rootNode) false = Ok (PBNode rootNode)
    /\ dag_get (dag flushed) (cidOf (mkDAGNode "" [])) false
       = Ok (PBNode (mkDAGNode "" []))
    /\ directPins flushed = directPins this
    /\ recursivePins flushed = recursivePins this.
Proof.
  intros Hflush.
  destruct (flushPins_fulfilled pinset this flushed Hflush)
    as (d1 & r1 & d2 & r2 & H1 & H2).
  rewrite (flushPins_stored pinset this d1 r1 d2 r2 H1 H2) in Hflush.
  cbv zeta in Hflush. injection Hflush as <-.
  exists (mkDAGNode ""
            [mkDAGLink "direct" (DAGNode_size (node r1)) (cid r1);
             mkDAGLink "recursive" (DAGNode_size (node r2)) (cid r2)]),
    d1, r1, d2, r2.
  split; [exact H1|]. split; [exact H2|]. split; [reflexivity|]. simpl.
  split; [apply lookup_insert_eq|].
  split; [unfold dag_get; by rewrite lookup_insert_eq|].
  split; [|done].
  unfold dag_get. rewrite lookup_insert_ne.
  - by rewrite lookup_insert_eq.
  - apply cidOf_ne. discriminate.
Qed.

Lemma flushPins_layout_witness :
  exists flushed rootNode,
    flushPins flatPinSet unflushed = (flushed, Fulfilled tt)
    /\ map Name (Links rootNode) = ["direct"; "recursive"]
    /\ datastore (repo flushed) !! PIN_DS_KEY
       = Some (CID_buffer (cidOf rootNode))
    /\ dag_get (dag flushed) (cidOf rootNode) false = Ok (PBNode rootNode).
Proof.
  destruct (flushPins flatPinSet unflushed) as [flushed p] eqn:Hflush.
  assert (Hp : p = Fulfilled tt).
  { unfold flushPins, storeSetOf, dagPut in Hflush. unfold_async.
    simpl in Hflush. by injection Hflush as _ <-. }
  subst p.
  destruct (flushPins_layout flatPinSet unflushed flushed Hflush)
    as (rootNode & d1 & r1 & d2 & r2 & _ & _ & Hlinks & Hkey & Hroot & _).
  exists flushed, rootNode. split; [done|].
  split; [by rewrite Hlinks|]. done.
Defined.

(** X4: [flushPins] never assigns the pin sets: fulfilled or rejected, it
    leaves [directPins] and [recursivePins] as they were.  When one of the
    two [storeSet] calls rejects, the flush is rejected and nothing is
    written to the datastore: the previous pin root stays in place. *)
Theorem flushPins_rejected (pinset : PinSet) (this : PinManager) :
  directPins (fst (flushPins pinset this)) = directPins this
  /\ recursivePins (fst (flushPins pinset this)) = recursivePins this
  /\ (forall e,
        storeSet pinset (dag this) (directKeys this) = Err e ->
        (exists e', snd (flushPins pinset this) = Rejected e')
        /\ repo (fst (flushPins pinset this)) = repo this)
  /\ (forall d1 r1 e,
        storeSet pinset (dag this) (directKeys this) = Ok (d1, r1) ->
        storeSet pinset d1 (recursiveKeys this) = Err e ->
        (exists e', snd (flushPins pinset this) = Rejected e')
        /\ repo (fst (flushPins pinset this)) = repo this).
Proof.
  unfold flushPins, storeSetOf, dagPut. unfold_async. simpl.
  destruct (storeSet pinset (dag this) (directKeys this))
    as [[d1 r1]|e1] eqn:H1; simpl.
  - change (recursiveKeys (set_dag d1 this)) with (recursiveKeys this).
    destruct (storeSet pinset d1 (recursiveKeys this))
      as [[d2 r2]|e2] eqn:H2; simpl.
    + repeat split; try done; intros; simplify_eq; congruence.
    + repeat split; try done; intros; simplify_eq; eauto.
  - destruct (storeSet pinset (dag this) (recursiveKeys this)) as [[d2 r2]|e2];
      simpl; repeat split; try done; intros; eauto.
Qed.

(** A codec that cannot store: the flush fails and the old pin root stays. *)
Lemma flushPins_rejected_witness :
  (exists e', snd (flushPins brokenPinSet malformedRoot) = Rejected e')
  /\ repo (fst (flushPins brokenPinSet malformedRoot)) = repo malformedRoot
  /\ directPins (fst (flushPins brokenPinSet malformedRoot)) = ["QmA"]
  /\ recursivePins (fst (flushPins brokenPinSet malformedRoot)) = ["QmC"].
Proof.
  destruct (flushPins_rejected brokenPinSet malformedRoot)
    as (Hd & Hr & Hstore & _).
  destruct (Hstore (decodeError "store failed") eq_refl) as [He Hrepo].
  split; [exact He|]. split; [exact Hrepo|]. split; [exact Hd | exact Hr].
Defined.

Lemma dag_put_present d n :
  d !! cid_str (cidOf n) = Some (PBNode n) -> fst (dag_put d n) = d.
Proof. intros H. simpl. by apply insert_id. Qed.

Lemma flatPinSet_stable : storeSet_stable flatPinSet.
Proof.
  intros d keys d' r d'' Hstore Hsub. simpl in *.
  unfold flat_storeSet in *. simpl in *. injection Hstore as <- <-.
  rewrite insert_id; [done|].
  rewrite map_subseteq_spec in Hsub. apply Hsub, lookup_insert_eq.
Qed.

(** X5: [flushPins] is idempotent: with a codec for which storing a stored set
    again changes nothing, a second flush of the same pin sets leaves the
    blocks, the datastore and the pin root exactly as the first flush left
    them. *)
Theorem flushPins_idempotent (pinset : PinSet) (this : PinManager) :
  PinSetRoundTrip pinset ->
  storeSet_stable pinset ->
  content_addressed (dag this) ->
  exists flushed,
    flushPins pinset this = (flushed, Fulfilled tt)
    /\ flushPins pinset flushed = (flushed, Fulfilled tt).
Proof.
  intros [Hadds _] Hstable Hca.
  destruct (Hadds (dag this) (directKeys this) Hca)
    as (d1 & r1 & Hs1 & Hsub1 & Hca1).
  destruct (Hadds d1 (recursiveKeys this) Hca1)
    as (d2 & r2 & Hs2 & Hsub2 & Hca2).
  pose proof (flushPins_stored pinset this d1 r1 d2 r2 Hs1 Hs2) as Hflush.
  cbv zeta in Hflush.
  set (dLink := mkDAGLink "direct" (DAGNode_size (node r1)) (cid r1)) in *.
  set (rLink := mkDAGLink "recursive" (DAGNode_size (node r2)) (cid r2)) in *.
  set (rootNode := mkDAGNode "" [dLink; rLink]) in *.
  set (d3 := fst (dag_put d2 (mkDAGNode "" []))) in *.
  set (d4 := fst (dag_put d3 rootNode)) in *.
  assert (Hsub3 : d2 ⊆ d3) by (by apply dag_put_subseteq).
  assert (Hca3 : content_addressed d3) by (by apply dag_put_content_addressed).
  assert (Hsub4 : d3 ⊆ d4) by (by apply dag_put_subseteq).
  assert (Hd2 : d2 ⊆ d4) by (by etrans).
  assert (Hd1 : d1 ⊆ d4) by (by etrans).
  assert (Hempty : d4 !! cid_str (cidOf (mkDAGNode "" []))
                   = Some (PBNode (mkDAGNode "" []))).
  { rewrite map_subseteq_spec in Hsub4. apply Hsub4. apply lookup_insert_eq. }
  assert (Hroot : d4 !! cid_str (cidOf rootNode) = Some (PBNode rootNode)).
  { apply lookup_insert_eq. }
  eexists. split; [exact Hflush|].
  rewrite (flushPins_stored pinset _ d4 r1 d4 r2).
  - cbv zeta. fold dLink rLink rootNode. simpl.
    rewrite (insert_id d4 _ _ Hempty), (insert_id d4 _ _ Hroot).
    unfold datastore_put. simpl. by rewrite insert_insert_eq.
  - simpl. change (directKeys _) with (directKeys this).
    by apply (Hstable _ _ _ _ _ Hs1).
  - simpl. change (recursiveKeys _) with (recursiveKeys this).
    by apply (Hstable _ _ _ _ _ Hs2).
Qed.

Lemma flushPins_idempotent_witness :
  exists flushed,
    flushPins flatPinSet unflushed = (flushed, Fulfilled tt)
    /\ flushPins flatPinSet flushed = (flushed, Fulfilled tt).
Proof.
  apply (flushPins_idempotent flatPinSet unflushed flatPinSet_roundtrip
           flatPinSet_stable).
  intros n m H. simpl in H. by rewrite lookup_empty in H.
Defined.

(** X2: after a fulfilled [flushPins], [getInternalBlocks] finds the root the
    flush wrote: it hands that root node to the codec and returns the
    codec's CIDs followed by the CID the datastore key holds; an error of
    the codec is the error of the call. *)
Theorem getInternalBlocks_after_flushPins (pinset : PinSet)
    (getInternalCids : InternalCids) (this flushed : PinManager) :
  flushPins pinset this = (flushed, Fulfilled tt) ->
  exists rootNode,
    datastore (repo flushed) !! PIN_DS_KEY
    = Some (CID_buffer (cidOf rootNode))
    /\ map Name (Links rootNode) = ["direct"; "recursive"]
    /\ getInternalBlocks getInternalCids flushed
       = (flushed,
          match getInternalCids (dag flushed) (PBNode rootNode) with
          | Ok cids => Fulfilled (cids ++ [cidOf rootNode])
          | Err e => Rejected e
          end).
Proof.
  intros Hflush.
  destruct (flushPins_fulfilled pinset this flushed Hflush)
    as (d1 & r1 & d2 & r2 & H1 & H2).
  rewrite (flushPins_stored pinset this d1 r1 d2 r2 H1 H2) in Hflush.
  cbv zeta in Hflush. injection Hflush as <-.
  eexists. split; [apply lookup_insert_eq|]. split; [reflexivity|].
  erewrite getInternalBlocks_with_root; [|simpl; apply lookup_insert_eq].
  simpl. unfold dag_get. simpl. rewrite lookup_insert_eq. reflexivity.
Qed.

Lemma getInternalBlocks_after_flushPins_witness :
  exists flushed rootNode,
    flushPins flatPinSet unflushed = (flushed, Fulfilled tt)
    /\ map Name (Links rootNode) = ["direct"; "recursive"]
    /\ getInternalBlocks flat_getInternalCids flushed
       = (flushed,
          Fulfilled (map Hash (Links rootNode)
                       ++ [cidOf (mkDAGNode "" [])] ++ [cidOf rootNode])).
Proof.
  destruct (flushPins flatPinSet unflushed) as [flushed p] eqn:Hflush.
  assert (Hp : p = Fulfilled tt).
  { unfold flushPins, storeSetOf, dagPut in Hflush. unfold_async.
    simpl in Hflush. by injection Hflush as _ <-. }
  subst p.
  destruct (getInternalBlocks_after_flushPins flatPinSet flat_getInternalCids
              unflushed flushed Hflush) as (rootNode & _ & Hnames & Hget).
  exists flushed, rootNode. split; [done|]. split; [exact Hnames|].
  rewrite Hget. simpl. by rewrite <- app_assoc.
Defined.

(** ** [load] *)

(** X6: when the datastore has a pin root, a [load] that is fulfilled replaces
    both sets wholesale: what the manager held in memory before plays no
    part in what it holds afterwards. *)
Theorem load_replaces_wholesale (pinset : PinSet)
    (this1 this2 loaded : PinManager) :
  repo this1 = repo this2 ->
  dag this1 = dag this2 ->
  is_Some (datastore (repo this1) !! PIN_DS_KEY) ->
  load pinset this1 = (loaded, Fulfilled tt) ->
  load pinset this2 = (loaded, Fulfilled tt).
Proof.
  destruct this1 as [r d dp1 rp1], this2 as [r2 d2 dp2 rp2]. simpl.
  intros <- <- [mh Hkey].
  unfold load, loadSetOf, datastore_has, datastore_get. unfold_async.
  cbv beta. simpl. rewrite !Hkey. simpl. rewrite !Hkey. simpl.
  destruct (dag_get d (CID_ofBuffer mh) false) as [pinRoot|e0];
    simpl; [|discriminate].
  destruct (loadSet pinset d pinRoot "recursive") as [rKeys|e1]; simpl;
    destruct (loadSet pinset d pinRoot "direct") as [dKeys|e2];
    simpl; try discriminate.
  intros H. by injection H as <-.
Qed.

(** Pins added in memory and never flushed are gone after a load. *)
Lemma load_replaces_wholesale_witness :
  load flatPinSet persisted
  = (mkPinManager (repo persisted) (dag persisted) ["QmA"] ["QmC"],
     Fulfilled tt)
  /\ load flatPinSet
       (mkPinManager (repo persisted) (dag persisted) ["QmZ"] ["QmZ"; "QmA"])
     = (mkPinManager (repo persisted) (dag persisted) ["QmA"] ["QmC"],
        Fulfilled tt).
Proof.
  assert (H : load flatPinSet persisted
              = (mkPinManager (repo persisted) (dag persisted) ["QmA"] ["QmC"],
                 Fulfilled tt)) by (by vm_compute).
  split; [exact H|].
  apply (load_replaces_wholesale flatPinSet persisted _ _); [done | done | | exact H].
  apply (bool_decide_unpack _). by vm_compute.
Defined.

(** ** The descendant scan, whatever it is asked *)



(** X8: a CID that is in [directPins] and not in [recursivePins] is reported as
    ['direct'] by a query of type ['all'], whatever [hasDescendant] would
    say: a direct pin answers before the scan, also for a block that lies
    below a recursive root. *)
Theorem isPinnedWithType_all_direct_before_scan (pinset : PinSet)
    (this : PinManager) (c : CID) :
  cidToString c ∉ recursivePins this ->
  cidToString c ∈ directPins this ->
  isPinnedWithType pinset c all this
  = (this, Fulfilled (mkPinInfo (cidToString c) true
                        (Some (ReasonString "direct")))).
Proof.
  intros Hr%Set_has_false Hd%Set_has_true.
  unfold isPinnedWithType. simpl. by rewrite Hr, Hd.
Qed.

Lemma isPinnedWithType_all_direct_before_scan_witness :
  hasDescendant eagerPinSet (dag directBelowRoot) (CID_buffer cidA) cidA = true
  /\ isPinnedWithType eagerPinSet cidD all directBelowRoot
     = (directBelowRoot,
        Fulfilled (mkPinInfo "QmD" true (Some (ReasonString "direct")))).
Proof.
  split; [reflexivity|].
  apply (isPinnedWithType_all_direct_before_scan eagerPinSet directBelowRoot
           cidD).
  - apply Set_has_false. reflexivity.
  - apply Set_has_true. reflexivity.
Defined.

(** ** [getIndirectKeys], beyond its result *)

Lemma indirectOnCid_this c (w : PinManager * list string) :
  fst (indirectOnCid c w) = fst w.
Proof. destruct w as [this keys]. unfold indirectOnCid. by destruct (negb _). Qed.

Lemma walkRoots_this fuel preload roots :
  forall w, fst (walkRoots fuel preload roots w) = fst w.
Proof.
  induction roots as [|b roots IH]; intros w; [done|].
  simpl.
  assert (H : fst (PQueue.final
                     (_walkDag fuel (CID_ofBuffer b) (preload || false)
                        indirectOnCid w)) = fst w).
  { unfold _walkDag.
    apply (onIdle_preserves (fun w' : PinManager * list string => fst w' = fst w));
      [|done].
    intros t s Hs.
    destruct (walk_state (preload || false) indirectOnCid t s) as [-> | ->];
      [done | by rewrite indirectOnCid_this]. }
  destruct (PQueue.idle _); [by rewrite IH | done].
Qed.

(** X9: [getIndirectKeys] only reads: the pin sets, the datastore and the blocks
    are the same afterwards, however many walks it made and however far the
    last one got. *)
Theorem getIndirectKeys_reads_only (fuel : nat) (preload : bool)
    (this : PinManager) :
  fst (getIndirectKeys fuel preload this) = this.
Proof. unfold getIndirectKeys. by rewrite walkRoots_this. Qed.

(** Two runs of a queue whose tasks do the same to related states end in
    related states, after the same steps. *)
Lemma onIdle_related {S1 S2 T : Type} (R : S1 -> S2 -> Prop) conc
    (run1 : T -> S1 -> PQueue.TaskEnd S1 T)
    (run2 : T -> S2 -> PQueue.TaskEnd S2 T) :
  (forall t s1 s2, R s1 s2 ->
     R (PQueue.state (run1 t s1)) (PQueue.state (run2 t s2))
     /\ PQueue.added (run1 t s1) = PQueue.added (run2 t s2)
     /\ PQueue.cleared (run1 t s1) = PQueue.cleared (run2 t s2)
     /\ PQueue.thrown (run1 t s1) = PQueue.thrown (run2 t s2)) ->
  forall fuel queue s1 s2 errs,
    R s1 s2 ->
    R (PQueue.final (PQueue.onIdle conc run1 fuel queue s1 errs))
      (PQueue.final (PQueue.onIdle conc run2 fuel queue s2 errs))
    /\ PQueue.idle (PQueue.onIdle conc run1 fuel queue s1 errs)
       = PQueue.idle (PQueue.onIdle conc run2 fuel queue s2 errs).
Proof.
  intros Hrun fuel.
  induction fuel as [|fuel IH]; intros queue s1 s2 errs HR.
  - by destruct queue.
  - destruct queue as [|t rest]; [done|].
    rewrite !onIdle_cons.
    destruct (Hrun t s1 s2 HR) as (Hstate & -> & -> & ->).
    by apply IH.
Qed.

(** The walks of [getIndirectKeys] never look at [directPins]. *)
Lemma walkRoots_directPins fuel preload roots :
  forall w1 w2,
    sameButDirectPins w1 w2 ->
    snd (walkRoots fuel preload roots w1)
    = snd (walkRoots fuel preload roots w2).
Proof.
  induction roots as [|b roots IH]; intros w1 w2 Hsame.
  - simpl. destruct Hsame as (_ & _ & H). by rewrite H.
  - simpl. unfold _walkDag.
    destruct (onIdle_related sameButDirectPins WALK_DAG_CONCURRENCY_LIMIT
                (walk (preload || false) indirectOnCid)
                (walk (preload || false) indirectOnCid)) with
      (fuel := fuel) (queue := [CID_ofBuffer b]) (s1 := w1) (s2 := w2)
      (errs := @nil Error) as [Hfinal Hidle]; [|exact Hsame|].
    + intros t [t1 k1] [t2 k2] (Hd & Hr & Hk). simpl in Hd, Hr, Hk. subst k2.
      unfold walk, dag_get. simpl. rewrite Hd.
      destruct (dag t2 !! cid_str t) as [n|]; simpl; [|done].
      split; [|done]. unfold sameButDirectPins. rewrite Hr.
      by destruct (negb _).
    + rewrite Hidle.
      destruct (PQueue.idle
                  (PQueue.onIdle WALK_DAG_CONCURRENCY_LIMIT
                     (walk (preload || false) indirectOnCid) fuel
                     [CID_ofBuffer b] w2 [])); [by apply IH | done].
Qed.

(** X10: [getIndirectKeys] does not depend on [directPins]: the same keys come
    back whatever is pinned directly, so a block below a recursive root is
    listed as indirect even when it is a direct pin as well. *)
Theorem getIndirectKeys_ignores_directPins (fuel : nat) (preload : bool)
    (this : PinManager) (pins : list string) :
  snd (getIndirectKeys fuel preload (set_directPins pins this))
  = snd (getIndirectKeys fuel preload this).
Proof.
  unfold getIndirectKeys.
  change (recursiveKeys (set_directPins pins this)) with (recursiveKeys this).
  by apply walkRoots_directPins.
Qed.

Example getIndirectKeys_lists_direct_pin :
  "QmD" ∈ directPins directBelowRoot
  /\ snd (getIndirectKeys 4 false directBelowRoot)
     = Fulfilled ["QmB"; "QmC"; "QmD"].
Proof. split; [apply Set_has_true; reflexivity | by vm_compute]. Qed.

(** ** What the walk does not guard against *)

Section WalkCycle.
Context {L : Type}.
Variable d : gmap string Node.
Variable onCycle : CID -> Prop.
Variable preload : bool.
Variable onCid : CID -> PinManager * L -> PinManager * L.
Hypothesis onCid_dag : forall c w, dag (fst w) = d -> dag (fst (onCid c w)) = d.
Hypothesis onCycle_next :
  forall x, onCycle x ->
    exists n y, d !! cid_str x = Some n /\ y ∈ walkLinks x n /\ onCycle y.

(** A queue that holds a node of a cycle holds one after every task. *)
Lemma walk_cycle_not_idle conc fuel :
  forall queue w errs,
    dag (fst w) = d ->
    (exists x, x ∈ queue /\ onCycle x) ->
    PQueue.idle (PQueue.onIdle conc (walk preload onCid) fuel queue w errs)
    = false.
Proof.
  induction fuel as [|fuel IH]; intros queue w errs Hw (x & Hin & Hx).
  - destruct queue; [by apply elem_of_nil in Hin | done].
  - destruct queue as [|c rest]; [by apply elem_of_nil in Hin|].
    rewrite onIdle_cons.
    destruct (d !! cid_str c) as [n|] eqn:Hc.
    + rewrite (walk_fetched _ _ _ _ n) by (by rewrite Hw). simpl.
      apply IH; [by apply onCid_dag|].
      apply elem_of_cons in Hin as [-> | Hin].
      * destruct (onCycle_next c Hx) as (n' & y & Hn' & Hy & Hcy).
        rewrite Hc in Hn'. injection Hn' as <-.
        exists y. split; [|done]. apply elem_of_app. by right.
      * exists x. split; [|done]. apply elem_of_app. by left.
    + rewrite walk_failed by (by rewrite Hw). simpl. rewrite app_nil_r.
      apply IH; [done|].
      apply elem_of_cons in Hin as [-> | Hin].
      * destruct (onCycle_next c Hx) as (n' & y & Hn' & _).
        rewrite Hc in Hn'. discriminate.
      * by exists x.
Qed.

End WalkCycle.

(** X11: [_walkDag] keeps no record of the nodes it has seen: started on a node
    of a cycle among the blocks, the queue never goes idle and the promise
    of the walk never settles, however long it runs. *)
Theorem walkDag_cycle_never_settles {L : Type} (this : PinManager)
    (onCycle : CID -> Prop) (cid : CID) (preload : bool)
    (onCid : CID -> PinManager * L -> PinManager * L) (l : L) :
  (forall x, onCycle x ->
     exists n y, dag this !! cid_str x = Some n
                 /\ y ∈ walkLinks x n /\ onCycle y) ->
  (forall c w, dag (fst w) = dag this -> dag (fst (onCid c w)) = dag this) ->
  onCycle cid ->
  forall fuel,
    walkPromise (_walkDag fuel cid preload onCid (this, l)) = Pending.
Proof.
  intros Hnext HonCid Hcid fuel. unfold walkPromise, _walkDag.
  rewrite (walk_cycle_not_idle (dag this) onCycle preload onCid HonCid Hnext);
    [done | done |].
  exists cid. split; [apply list_elem_of_here | done].
Qed.

(** The block of [A] links to [A]: no amount of steps ends the walk, and
    [getIndirectKeys] with [A] as a recursive root never returns. *)
Lemma walkDag_cycle_never_settles_witness :
  cidA ∈ walkLinks cidA (PBNode (mkDAGNode "a" [linkTo cidA]))
  /\ forall fuel,
       walkPromise (_walkDag fuel cidA false indirectOnCid (selfLinked, []))
       = Pending
       /\ snd (getIndirectKeys fuel false selfLinked) = Pending.
Proof.
  assert (Hself : cidA ∈ walkLinks cidA (PBNode (mkDAGNode "a" [linkTo cidA]))).
  { apply (bool_decide_unpack _). by vm_compute. }
  split; [exact Hself|]. intros fuel.
  assert (H : walkPromise
                (_walkDag fuel cidA false indirectOnCid (selfLinked, []))
              = Pending).
  { apply (walkDag_cycle_never_settles selfLinked (fun x => x = cidA)).
    - intros x ->. eexists _, cidA. split; [by vm_compute|]. done.
    - apply indirectOnCid_dag.
    - done. }
  split; [exact H|].
  unfold getIndirectKeys. simpl. unfold walkPromise in H.
  change (CID_ofBuffer (CID_buffer (CID_ofString "QmA"))) with cidA.
  by destruct (PQueue.idle _).
Defined.

Lemma sum_list_map_ext {A : Type} (f g : A -> nat) (l : list A) :
  (forall x, x ∈ l -> f x = g x) ->
  sum_list (map f l) = sum_list (map g l).
Proof.
  induction l as [|a l IH]; intros H; simpl; [done|].
  rewrite (H a (list_elem_of_here _ _)), IH; [done|].
  intros x Hx. apply H. by apply list_elem_of_further.
Qed.

Lemma countOnCid_dag (d : gmap string Node) c (w : PinManager * nat) :
  dag (fst w) = d -> dag (fst (countOnCid c w)) = d.
Proof. done. Qed.

Section WalkVisits.
Variable d : gmap string Node.
Variable rank : CID -> nat.
Hypothesis Hacyc : acyclic d rank.

Lemma walkVisits_succ h : forall c, rank c <= h ->
  walkVisits d (S h) c = walkVisits d h c.
Proof.
  induction h as [|h IH]; intros c Hrank.
  - simpl. destruct (d !! cid_str c) as [n|] eqn:Hc; [|done].
    destruct (walkLinks c n) as [|child l] eqn:Hl; [done|].
    assert (rank child < rank c).
    { apply (Hacyc c n child Hc). rewrite Hl. apply list_elem_of_here. }
    lia.
  - change (walkVisits d (S (S h)) c) with
      (match d !! cid_str c with
       | None => 0
       | Some n => S (sum_list (map (walkVisits d (S h)) (walkLinks c n)))
       end).
    change (walkVisits d (S h) c) with
      (match d !! cid_str c with
       | None => 0
       | Some n => S (sum_list (map (walkVisits d h) (walkLinks c n)))
       end).
    destruct (d !! cid_str c) as [n|] eqn:Hc; [|done].
    f_equal. apply sum_list_map_ext. intros child Hchild. apply IH.
    pose proof (Hacyc c n child Hc Hchild). lia.
Qed.

Lemma walkVisits_stable h c :
  rank c <= h -> walkVisits d h c = walkVisits d (rank c) c.
Proof.
  induction h as [|h IH]; intros Hrank.
  - by replace (rank c) with 0 by lia.
  - destruct (decide (rank c = S h)) as [-> | Hne]; [done|].
    rewrite walkVisits_succ by lia. apply IH. lia.
Qed.

(** A fetched node is visited once, and then each of its links. *)
Lemma walkVisits_links c n :
  d !! cid_str c = Some n ->
  walkVisits d (rank c) c
  = S (sum_list (map (fun child => walkVisits d (rank child) child)
                   (walkLinks c n))).
Proof.
  intros Hc. destruct (rank c) as [|h] eqn:Hrank.
  - simpl. rewrite Hc.
    destruct (walkLinks c n) as [|child l] eqn:Hl; [done|].
    assert (rank child < rank c).
    { apply (Hacyc c n child Hc). rewrite Hl. apply list_elem_of_here. }
    lia.
  - simpl. rewrite Hc. f_equal. apply sum_list_map_ext.
    intros child Hchild. apply walkVisits_stable.
    pose proof (Hacyc c n child Hc Hchild). lia.
Qed.

Lemma walkVisits_missing c h : d !! cid_str c = None -> walkVisits d h c = 0.
Proof. intros Hc. destruct h; simpl; by rewrite Hc. Qed.

Lemma walk_count conc preload fuel :
  forall queue (w : PinManager * nat) errs,
    dag (fst w) = d ->
    queueCost d rank queue <= fuel ->
    snd (PQueue.final
           (PQueue.onIdle conc (walk preload countOnCid) fuel queue w errs))
    = snd w
      + sum_list (map (fun c => walkVisits d (rank c) c) queue).
Proof.
  induction fuel as [|fuel IH]; intros queue w errs Hw Hfuel.
  - destruct queue as [|c rest]; [simpl; lia|].
    unfold queueCost in Hfuel. simpl in Hfuel.
    pose proof (walkCost_pos d (rank c) c). lia.
  - destruct queue as [|c rest]; [simpl; lia|].
    change (queueCost d rank (c :: rest))
      with (walkCost d (rank c) c + queueCost d rank rest) in Hfuel.
    rewrite onIdle_cons.
    destruct (d !! cid_str c) as [n|] eqn:Hc.
    + rewrite (walk_fetched _ _ _ _ n) by (by rewrite Hw). simpl.
      rewrite IH; [|done|].
      * rewrite map_app, (walkVisits_links c n Hc). simpl.
        assert (Happ : forall l1 l2 : list nat,
                  sum_list (l1 ++ l2) = sum_list l1 + sum_list l2).
        { intros l1 l2. induction l1 as [|a l1 IHl]; simpl; [done|].
          rewrite IHl. lia. }
        rewrite Happ. lia.
      * rewrite queueCost_app.
        pose proof (walkCost_links d rank c n Hacyc Hc). lia.
    + rewrite walk_failed by (by rewrite Hw). simpl. rewrite app_nil_r.
      rewrite IH; [|done|].
      * by rewrite (walkVisits_missing c _ Hc).
      * pose proof (walkCost_pos d (rank c) c). lia.
Qed.

End WalkVisits.

(** X12: [_walkDag] calls [onCid] once for every path from the root to a block it
    can fetch, not once for every block: a block that can be reached along
    two paths is fetched and reported twice. *)
Theorem walkDag_onCid_once_per_path (this : PinManager) (rank : CID -> nat)
    (cid : CID) (preload : bool) (calls : nat) :
  acyclic (dag this) rank ->
  exists fuel0, forall fuel, fuel0 <= fuel ->
    walkPromise (_walkDag fuel cid preload countOnCid (this, calls))
    = Fulfilled tt
    /\ snd (PQueue.final (_walkDag fuel cid preload countOnCid (this, calls)))
       = calls + walkVisits (dag this) (rank cid) cid.
Proof.
  intros Hacyc. exists (queueCost (dag this) rank [cid]). intros fuel Hfuel.
  split.
  - unfold walkPromise, _walkDag.
    by rewrite (walk_idle (dag this) _ _ _ (countOnCid_dag (dag this)) rank Hacyc).
  - unfold _walkDag.
    rewrite (walk_count (dag this) rank Hacyc); [simpl; lia | done | done].
Qed.

Lemma diamond_links c n child :
  dag diamond !! cid_str c = Some n ->
  child ∈ walkLinks c n ->
  (c = cidA /\ (child = cidB \/ child = cidC))
  \/ ((c = cidB \/ c = cidC) /\ child = cidD).
Proof.
  destruct c as [s]. simpl. intros Hc Hchild.
  rewrite !lookup_insert_Some, lookup_empty in Hc.
  destruct Hc as [[<- <-] | [_ [[<- <-] | [_ [[<- <-] | [_ [[<- <-] | [_ H]]]]]]]];
    [| | | |discriminate]; vm_compute in Hchild.
  - left. split; [done|].
    apply elem_of_cons in Hchild as [-> | Hchild]; [by left|].
    apply elem_of_cons in Hchild as [-> | Hchild]; [by right|].
    by apply elem_of_nil in Hchild.
  - right. split; [by left|].
    apply elem_of_cons in Hchild as [-> | Hchild]; [done|].
    by apply elem_of_nil in Hchild.
  - right. split; [by right|].
    apply elem_of_cons in Hchild as [-> | Hchild]; [done|].
    by apply elem_of_nil in Hchild.
  - by apply elem_of_nil in Hchild.
Qed.

Lemma diamond_acyclic : acyclic (dag diamond) diamondRank.
Proof.
  intros c n child Hc Hchild.
  destruct (diamond_links c n child Hc Hchild)
    as [[-> [-> | ->]] | [[-> | ->] ->]]; vm_compute; lia.
Qed.

(** The diamond has four blocks; the walk from [A] calls [onCid] five
    times, twice for [D]. *)
Lemma walkDag_onCid_once_per_path_witness :
  size (dag diamond) = 4
  /\ walkVisits (dag diamond) (diamondRank cidA) cidA = 5
  /\ exists fuel0, forall fuel, fuel0 <= fuel ->
       walkPromise (_walkDag fuel cidA false countOnCid (diamond, 0))
       = Fulfilled tt
       /\ snd (PQueue.final (_walkDag fuel cidA false countOnCid (diamond, 0)))
          = 0 + walkVisits (dag diamond) (diamondRank cidA) cidA.
Proof.
  split; [by vm_compute|]. split; [by vm_compute|].
  exact (walkDag_onCid_once_per_path diamond diamondRank cidA false 0
           diamond_acyclic).
Defined.

(** ** [fetchCompleteDag], when blocks are missing *)

(** X13: over a DAG, [fetchCompleteDag] is fulfilled and changes nothing whether
    or not the blocks below the CID, or the block of the CID itself, can be
    fetched: a fulfilled call does not tell that the DAG is complete. *)
Theorem fetchCompleteDag_always_fulfilled (this : PinManager)
    (rank : CID -> nat) (cid : CID) (options : FetchOptions) :
  acyclic (dag this) rank ->
  exists fuel0, forall fuel, fuel0 <= fuel ->
    fetchCompleteDag fuel cid options this = (this, Fulfilled tt).
Proof.
  intros Hacyc. exists (queueCost (dag this) rank [cid]). intros fuel Hfuel.
  unfold fetchCompleteDag, walkPromise, _walkDag.
  rewrite (walk_idle (dag this) WALK_DAG_CONCURRENCY_LIMIT (preload options)
             (fun _ w => w) (fun _ _ H => H) rank Hacyc); [|done|done].
  f_equal.
  apply (onIdle_preserves (fun w : PinManager * unit => fst w = this));
    [|done].
  intros t s Hs.
  destruct (walk_state (preload options) (fun _ w => w) t s) as [-> | ->];
    exact Hs.
Qed.

(** The block of [B] is missing below [A], and [Z] has no block at all:
    both calls are fulfilled. *)
Lemma fetchCompleteDag_always_fulfilled_witness :
  dag_get (dag scenarioWithoutB) cidB false = Err (notFoundError "QmB")
  /\ dag_get (dag scenarioWithoutB) cidZ false = Err (notFoundError "QmZ")
  /\ (exists fuel0, forall fuel, fuel0 <= fuel ->
        fetchCompleteDag fuel cidA (mkFetchOptions false) scenarioWithoutB
        = (scenarioWithoutB, Fulfilled tt))
  /\ (exists fuel0, forall fuel, fuel0 <= fuel ->
        fetchCompleteDag fuel cidZ (mkFetchOptions false) scenarioWithoutB
        = (scenarioWithoutB, Fulfilled tt)).
Proof.
  split; [by vm_compute|]. split; [by vm_compute|]. split.
  - exact (fetchCompleteDag_always_fulfilled scenarioWithoutB scenarioRank
             cidA (mkFetchOptions false) scenarioWithoutB_acyclic).
  - exact (fetchCompleteDag_always_fulfilled scenarioWithoutB scenarioRank
             cidZ (mkFetchOptions false) scenarioWithoutB_acyclic).
Defined.
